(** * ChessBot: rating engine and tournament service

  A shallow embedding of [server/services/elo-calculator.ts] (the
  [EloCalculator] class, the backward-compatible [calculateEloChange]
  and the [TournamentService] class) together with the part of
  [server/storage.ts] and [shared/schema.ts] those functions touch.

  Numbers.  A JavaScript [number] is taken as a real number: the model
  is the exact arithmetic the doubles approximate.  [NaN] is added
  where a guard decides on it ([calculateRequiredRating]), and the
  rounding error of the doubles where it decides a result
  ([calculatePerformanceRating]); the infinities are outside the
  model.  Integer columns of the database ([elo_rating],
  [games_played], ...) are [Z], and a write is checked against the
  32-bit range of the column.

  Effects.  The database is explicit state with the constraints of the
  schema that the modelled writes can violate; a call either returns
  or throws.  Console output and the messaging collaborator are left
  out. *)

From Stdlib Require Import Reals Lra Lia ZArith List.
From stdpp Require Import gmap strings pretty.
From Equations Require Import Equations.

(** ** JavaScript primitives *)

Module Js.
Local Open Scope R_scope.

(** [Math.round x]: the integer nearest to [x], ties towards +infinity,
    that is [floor (x + 0.5)]. *)
Definition round (x : R) : Z := Int_part (x + / 2).

(** [Math.pow(10, x)]. *)
Definition pow10 (x : R) : R := Rpower 10 x.

(** [Math.log10 x] (for [0 < x]). *)
Definition log10 (x : R) : R := ln x / ln 10.

Definition max (a b : R) : R := Rmax a b.
Definition min (a b : R) : R := Rmin a b.

(** Truthiness of an optional number: [undefined] and [0] are falsy. *)
Definition truthy (o : option R) : option R :=
  match o with
  | Some v => if Req_dec_T v 0 then None else Some v
  | None => None
  end.

(** [o || d] for an optional number [o]. *)
Definition or_else (o : option R) (d : R) : R :=
  match truthy o with
  | Some v => v
  | None => d
  end.

(** Truthiness of a nullable string: [null] and the empty string are
    falsy. *)
Definition truthy_string (o : option string) : option string :=
  match o with
  | Some s => if decide (s = EmptyString) then None else Some s
  | None => None
  end.

(** A [number] argument that may be [NaN].  It is used where the
    behaviour on [NaN] matters; the infinities are left out. *)
Inductive number : Type :=
| Finite (r : R)
| NaN.

(** [a <= b] and [a >= b]: every comparison with [NaN] is false. *)
Definition lte (a b : number) : bool :=
  match a, b with
  | Finite x, Finite y => if Rle_dec x y then true else false
  | _, _ => false
  end.
Definition gte (a b : number) : bool :=
  match a, b with
  | Finite x, Finite y => if Rge_dec x y then true else false
  | _, _ => false
  end.

(** Arithmetic on [number]: [NaN] in, [NaN] out. *)
Definition lift1 (f : R -> R) (a : number) : number :=
  match a with
  | Finite x => Finite (f x)
  | NaN => NaN
  end.
Definition lift2 (f : R -> R -> R) (a b : number) : number :=
  match a, b with
  | Finite x, Finite y => Finite (f x y)
  | _, _ => NaN
  end.

(** What [Math.round] returns for a [number]: an integer, or [NaN]. *)
Inductive rounded : Type :=
| Integer (z : Z)
| NotANumber.
Definition round_number (a : number) : rounded :=
  match a with
  | Finite x => Integer (round x)
  | NaN => NotANumber
  end.

(** What a call either returns or throws. *)
Inductive completion (A : Type) : Type :=
| Return (a : A)
| Throw (message : string).
Arguments Return {A} a.
Arguments Throw {A} message.

End Js.

(** ** [EloCalculator] *)

Module EloCalculator.
Import Js.
Local Open Scope R_scope.

Record EloResult : Type := {
  newRatingPlayer1 : R;
  newRatingPlayer2 : R;
  changePlayer1 : R;
  changePlayer2 : R
}.

Record EloCalculationOptions : Type := {
  kFactor : option R;
  provisionalThreshold : option R;
  ratingFloor : option R;
  ratingCeiling : option R
}.

(** [options?.field]. *)
Definition opt_field (f : EloCalculationOptions -> option R)
    (options : option EloCalculationOptions) : option R :=
  match options with
  | Some o => f o
  | None => None
  end.

Definition DEFAULT_K_FACTOR : R := 32.
Definition HIGH_RATING_THRESHOLD : R := 2400.
Definition LOW_RATING_K_FACTOR : R := 40.
Definition MEDIUM_RATING_K_FACTOR : R := 32.
Definition HIGH_RATING_K_FACTOR : R := 16.
Definition PROVISIONAL_GAMES_THRESHOLD : R := 30.
Definition RATING_FLOOR : R := 100.
Definition RATING_CEILING : R := 3000.

Definition calculateExpectedScore (playerRating opponentRating : R) : R :=
  let ratingDifference := opponentRating - playerRating in
  1 / (1 + pow10 (ratingDifference / 400)).

Definition calculateKFactor (playerRating gamesPlayed : R)
    (options : option EloCalculationOptions) : R :=
  match truthy (opt_field kFactor options) with
  | Some k => k
  | None =>
    if Rlt_dec gamesPlayed
         (or_else (opt_field provisionalThreshold options)
                  PROVISIONAL_GAMES_THRESHOLD)
    then LOW_RATING_K_FACTOR
    else if Rge_dec playerRating HIGH_RATING_THRESHOLD
    then HIGH_RATING_K_FACTOR
    else if Rge_dec playerRating 2100
    then MEDIUM_RATING_K_FACTOR
    else LOW_RATING_K_FACTOR
  end.

(** The result type of [calculateNewRatings]; the [default] branch of
    its [switch] is excluded by this type. *)
Inductive MatchResult : Type := player1_wins | player2_wins | draw.

Definition calculateNewRatings
    (player1Rating player2Rating player1GamesPlayed player2GamesPlayed : R)
    (result : MatchResult) (options : option EloCalculationOptions)
    : EloResult :=
  let expectedScore1 := calculateExpectedScore player1Rating player2Rating in
  let expectedScore2 := calculateExpectedScore player2Rating player1Rating in
  let '(actualScore1, actualScore2) :=
    match result with
    | player1_wins => (1, 0)
    | player2_wins => (0, 1)
    | draw => (/ 2, / 2)
    end in
  let kFactor1 := calculateKFactor player1Rating player1GamesPlayed options in
  let kFactor2 := calculateKFactor player2Rating player2GamesPlayed options in
  let change1 := IZR (round (kFactor1 * (actualScore1 - expectedScore1))) in
  let change2 := IZR (round (kFactor2 * (actualScore2 - expectedScore2))) in
  let newRating1 := player1Rating + change1 in
  let newRating2 := player2Rating + change2 in
  let floor := or_else (opt_field ratingFloor options) RATING_FLOOR in
  let ceiling := or_else (opt_field ratingCeiling options) RATING_CEILING in
  let newRating1 := max floor (min ceiling newRating1) in
  let newRating2 := max floor (min ceiling newRating2) in
  {| newRatingPlayer1 := newRating1;
     newRatingPlayer2 := newRating2;
     changePlayer1 := newRating1 - player1Rating;
     changePlayer2 := newRating2 - player2Rating |}.

(** The result type of the single-player functions. *)
Inductive GameResult : Type := win | loss | draw_game.

Definition actualScoreOf (result : GameResult) : R :=
  match result with
  | win => 1
  | loss => 0
  | draw_game => / 2
  end.

(** [EloCalculator.calculateEloChange]; [gamesPlayed] defaults to 50. *)
Definition calculateEloChange (playerRating opponentRating : R)
    (result : GameResult) (gamesPlayed : option R) : Z :=
  let gamesPlayed := match gamesPlayed with Some g => g | None => 50 end in
  let expectedScore := calculateExpectedScore playerRating opponentRating in
  let actualScore := actualScoreOf result in
  let kFactor := calculateKFactor playerRating gamesPlayed None in
  round (kFactor * (actualScore - expectedScore)).

Record GameRecord : Type := {
  opponentRating : R;
  result : GameResult
}.

(** The two sums and their quotients by the number of games are exact
    here.  [rounding] is the error the doubles make in evaluating
    [400 * Math.log10(p / (1 - p))] and adding it to the average,
    relative to that term: zero is exact arithmetic.  It decides the
    result where the exact sum lies half-way between two integers. *)
Definition calculatePerformanceRating (rounding : R)
    (results : list GameRecord) : Z :=
  if Nat.eqb (length results) 0 then 0%Z
  else
    let totalScore :=
      fold_left (fun sum game =>
                   match result game with
                   | win => sum + 1
                   | draw_game => sum + / 2
                   | loss => sum + 0
                   end) results 0 in
    let averageOpponentRating :=
      fold_left (fun sum game => sum + opponentRating game) results 0
      / INR (length results) in
    let scorePercentage := totalScore / INR (length results) in
    let ratingDifference :=
      if Req_dec_T scorePercentage 1 then 400
      else if Req_dec_T scorePercentage 0 then - 400
      else 400 * log10 (scorePercentage / (1 - scorePercentage))
           * (1 + rounding) in
    round (averageOpponentRating + ratingDifference).

(** [targetScore] may be [NaN]: both comparisons of the guard are then
    false and the arithmetic carries the [NaN] to the result. *)
Definition calculateRequiredRating (opponentRating : R)
    (targetScore : number) : completion rounded :=
  if lte targetScore (Finite 0) || gte targetScore (Finite 1)
  then Throw "Target score must be between 0 and 1"
  else
    let ratingDifference :=
      lift2 Rmult (Finite 400)
        (lift1 log10
           (lift2 Rdiv targetScore (lift2 Rminus (Finite 1) targetScore))) in
    Return (round_number
              (lift2 Rplus (Finite opponentRating) ratingDifference)).

(** The four buckets of [calculateRatingReliability]. *)
Inductive ReliabilityCategory : Type :=
  provisional | established | reliable | highly_reliable.

Record RatingReliability : Type := {
  reliability : R;
  category : ReliabilityCategory
}.

(** [recentPerformanceVariance] is optional; [Some v] is any supplied
    number, zero included (the test is [!== undefined]). *)
Definition calculateRatingReliability (gamesPlayed : R)
    (recentPerformanceVariance : option R) : RatingReliability :=
  let baseReliability := min 1 (gamesPlayed / 100) in
  let baseReliability :=
    match recentPerformanceVariance with
    | Some variance =>
        let variancePenalty := min 0.3 (variance / 200) in
        baseReliability * (1 - variancePenalty)
    | None => baseReliability
    end in
  let category :=
    if Rlt_dec gamesPlayed 10 then provisional
    else if Rlt_dec gamesPlayed 50 then established
    else if Rlt_dec gamesPlayed 100 then reliable
    else highly_reliable in
  {| reliability := baseReliability; category := category |}.

End EloCalculator.

(** ** Module-level exports of [elo-calculator.ts] *)

Module Exports.

(** [calculateEloChange], kept for backward compatibility: it decodes
    the result string and throws on any other string. *)
Definition calculateEloChange (playerRating opponentRating : R)
    (result : string) : Js.completion Z :=
  let decoded :=
    if decide (result = "white_wins" \/ result = "player1_wins"
               \/ result = "win")
    then Some EloCalculator.win
    else if decide (result = "black_wins" \/ result = "player2_wins"
                    \/ result = "loss")
    then Some EloCalculator.loss
    else if decide (result = "draw")
    then Some EloCalculator.draw_game
    else None in
  match decoded with
  | Some gameResult =>
      Js.Return (EloCalculator.calculateEloChange
                   playerRating opponentRating gameResult None)
  | None => Js.Throw ("Invalid game result: " +:+ result)
  end.

End Exports.

(** ** The tables of [shared/schema.ts]

  Only the columns the modelled services read or write are kept;
  names, descriptions and timestamps are left out.  The constraints
  the writes can violate are kept: [integer] columns are 32-bit, the
  [result] column is an enum and the two player columns of a game
  reference [users.id]. *)

Module Schema.

Inductive GameStatus : Type := game_active | game_completed | game_abandoned.
Inductive TournamentStatus : Type := upcoming | active | completed | cancelled.
Inductive EliminationFormat : Type := single | double | swiss | round_robin.

Record TournamentSettings : Type := {
  maxParticipants : Z;
  isRatedSetting : bool;
  autoStart : bool;
  autoAdvance : bool;
  eliminationFormat : EliminationFormat
}.

Record User : Type := {
  user_id : string;
  eloRating : Z;
  gamesPlayed : Z;
  gamesWon : Z;
  gamesLost : Z;
  gamesDrawn : Z
}.

Record Game : Type := {
  game_id : string;
  whitePlayerId : option string;
  blackPlayerId : option string;
  status : GameStatus;
  boardState : string;
  moveHistory : list string;
  game_result : option string;
  whiteEloChange : Z;
  blackEloChange : Z;
  isRated : bool;
  tournamentId : option string
}.

Record Tournament : Type := {
  tournament_id : string;
  tournament_status : TournamentStatus;
  winnerId : option string;
  rules : option TournamentSettings
}.

(** A row of [tournament_participants], as the generators read it. *)
Record Participant : Type := { userId : string }.

(** The values of the enum [game_result]. *)
Definition game_results : list string := ["white_wins"; "black_wins"; "draw"].

(** What an [integer] column can hold. *)
Definition is_int4 (z : Z) : bool :=
  (-2147483648 <=? z)%Z && (z <=? 2147483647)%Z.

(** The columns a [Partial<InsertUser>], [Partial<InsertGame>] or
    [Partial<InsertTournament>] of the modelled callers may set; [None]
    is a key that is absent or [undefined]. *)
Record UserUpdates : Type := {
  set_eloRating : option Z;
  set_gamesPlayed : option Z;
  set_gamesWon : option Z;
  set_gamesLost : option Z;
  set_gamesDrawn : option Z
}.

Record GameUpdates : Type := {
  set_status : option GameStatus;
  set_result : option string;
  set_whiteEloChange : option Z;
  set_blackEloChange : option Z
}.

Record TournamentUpdates : Type := {
  set_tournament_status : option TournamentStatus;
  set_winnerId : option string
}.

End Schema.

(** ** [DatabaseStorage]

  The database is a record of tables keyed by primary key.
  [gen_random_uuid()] is modelled by a serial number.  A write that
  violates a constraint throws and changes nothing. *)

Module Storage.
Import Schema Js.

Record Db : Type := {
  users : gmap string User;
  games : gmap string Game;
  tournaments : gmap string Tournament;
  serial : nat
}.

(** Computations over the database that may throw. *)
Definition M (A : Type) : Type := Db -> completion A * Db.

Definition ret {A} (a : A) : M A := fun db => (Return a, db).
Definition throw {A} (message : string) : M A := fun db => (Throw message, db).
Definition bind {A B} (m : M A) (k : A -> M B) : M B :=
  fun db =>
    match m db with
    | (Return a, db') => k a db'
    | (Throw message, db') => (Throw message, db')
    end.
Definition lift {A} (c : completion A) : M A := fun db => (c, db).

(** [try { m } catch (error) { console.error(...) }]. *)
Definition try_catch (m : M unit) : M unit :=
  fun db =>
    match m db with
    | (Return tt, db') => (Return tt, db')
    | (Throw _, db') => (Return tt, db')
    end.

Definition getUser (id : string) : M (option User) :=
  fun db => (Return (users db !! id), db).

(** [Promise.all] over writes: every write is issued, whether or not
    another one fails; the call throws if one of them did (the model
    reports the first of the list). *)
Fixpoint all (writes : list (M unit)) : M unit :=
  fun db =>
    match writes with
    | [] => (Return tt, db)
    | write :: rest =>
        let (c, db1) := write db in
        let (c', db2) := all rest db1 in
        (match c with
         | Throw message => Throw message
         | Return _ => c'
         end, db2)
    end.

(** The value of a column after a write: the value set, or the old
    one when the key is absent. *)
Definition written {A} (o : option A) (old : A) : A :=
  match o with
  | Some v => v
  | None => old
  end.

(** The server checks the values of a write against the types of the
    columns whether or not a row matches the key. *)
Definition fits_int4 (o : option Z) : bool :=
  match o with
  | Some z => is_int4 z
  | None => true
  end.

Definition user_updates_fit (updates : UserUpdates) : bool :=
  fits_int4 (set_eloRating updates) && fits_int4 (set_gamesPlayed updates)
  && fits_int4 (set_gamesWon updates) && fits_int4 (set_gamesLost updates)
  && fits_int4 (set_gamesDrawn updates).

(** A row after the columns of [updates] are written into it. *)
Definition user_after (updates : UserUpdates) (u : User) : User :=
  {| user_id := user_id u;
     eloRating := written (set_eloRating updates) (eloRating u);
     gamesPlayed := written (set_gamesPlayed updates) (gamesPlayed u);
     gamesWon := written (set_gamesWon updates) (gamesWon u);
     gamesLost := written (set_gamesLost updates) (gamesLost u);
     gamesDrawn := written (set_gamesDrawn updates) (gamesDrawn u) |}.

Definition updateUser (id : string) (updates : UserUpdates) : M unit :=
  fun db =>
    if user_updates_fit updates then
      (Return tt,
       {| users := match users db !! id with
                   | Some u => <[id := user_after updates u]> (users db)
                   | None => users db
                   end;
          games := games db;
          tournaments := tournaments db;
          serial := serial db |})
    else (Throw "integer out of range", db).

Definition getGame (id : string) : M (option Game) :=
  fun db => (Return (games db !! id), db).

(** The columns an [InsertGame] of the tournament service supplies;
    the others take their defaults.  Both players must be stored users
    (the two foreign keys of the table). *)
Definition createGame (white black : string) (st : GameStatus)
    (tid : string) (rated : bool) (board : string) (moves : list string)
    : M Game :=
  fun db =>
    match users db !! white, users db !! black with
    | Some _, Some _ =>
      let game :=
        {| game_id := pretty (serial db);
           whitePlayerId := Some white;
           blackPlayerId := Some black;
           status := st;
           boardState := board;
           moveHistory := moves;
           game_result := None;
           whiteEloChange := 0;
           blackEloChange := 0;
           isRated := rated;
           tournamentId := Some tid |} in
      (Return game,
       {| users := users db;
          games := <[game_id game := game]> (games db);
          tournaments := tournaments db;
          serial := S (serial db) |})
    | _, _ =>
      (Throw "insert on table games violates a foreign key constraint", db)
    end.

(** A [result] that is set must be a value of the enum. *)
Definition game_updates_fit (updates : GameUpdates) : bool :=
  match set_result updates with
  | Some r => bool_decide (In r game_results)
  | None => true
  end
  && fits_int4 (set_whiteEloChange updates)
  && fits_int4 (set_blackEloChange updates).

Definition game_after (updates : GameUpdates) (g : Game) : Game :=
  {| game_id := game_id g;
     whitePlayerId := whitePlayerId g;
     blackPlayerId := blackPlayerId g;
     status := written (set_status updates) (status g);
     boardState := boardState g;
     moveHistory := moveHistory g;
     game_result := match set_result updates with
                    | Some r => Some r
                    | None => game_result g
                    end;
     whiteEloChange := written (set_whiteEloChange updates)
                         (whiteEloChange g);
     blackEloChange := written (set_blackEloChange updates)
                         (blackEloChange g);
     isRated := isRated g;
     tournamentId := tournamentId g |}.

Definition updateGame (id : string) (updates : GameUpdates) : M unit :=
  fun db =>
    if game_updates_fit updates then
      (Return tt,
       {| users := users db;
          games := match games db !! id with
                   | Some g => <[id := game_after updates g]> (games db)
                   | None => games db
                   end;
          tournaments := tournaments db;
          serial := serial db |})
    else (Throw "invalid value for a column of table games", db).

Definition isActiveGame (g : Game) : bool :=
  match status g with game_active => true | _ => false end.

(** The order of the rows is not modelled. *)
Definition getActiveGames : M (list Game) :=
  fun db =>
    (Return (List.filter isActiveGame (map snd (map_to_list (games db)))), db).

Definition getTournament (id : string) : M (option Tournament) :=
  fun db => (Return (tournaments db !! id), db).

(** A winner written into a row must be a stored user (the foreign
    key of the column). *)
Definition winner_fits (db : Db) (updates : TournamentUpdates) : bool :=
  match set_winnerId updates with
  | Some w =>
      match users db !! w with
      | Some _ => true
      | None => false
      end
  | None => true
  end.

Definition tournament_after (updates : TournamentUpdates) (t : Tournament)
    : Tournament :=
  {| tournament_id := tournament_id t;
     tournament_status := written (set_tournament_status updates)
                            (tournament_status t);
     winnerId := match set_winnerId updates with
                 | Some w => Some w
                 | None => winnerId t
                 end;
     rules := rules t |}.

Definition updateTournament (id : string) (updates : TournamentUpdates)
    : M unit :=
  fun db =>
    match tournaments db !! id with
    | Some t =>
        if winner_fits db updates then
          (Return tt,
           {| users := users db;
              games := games db;
              tournaments :=
                <[id := tournament_after updates t]> (tournaments db);
              serial := serial db |})
        else
          (Throw
             "update on table tournaments violates a foreign key constraint",
           db)
    | None =>
        (Return tt,
         {| users := users db;
            games := games db;
            tournaments := tournaments db;
            serial := serial db |})
    end.

End Storage.

Declare Scope storage_scope.
Delimit Scope storage_scope with storage.
Notation "'let*' x ':=' m 'in' k" := (Storage.bind m (fun x => k))
  (at level 10, x name, m at level 100, k at level 200) : storage_scope.

(** ** [TournamentService] *)

Module TournamentService.
Import Schema Js Storage.
Local Open Scope storage_scope.

Record TournamentMatch : Type := {
  id : string;
  player1Id : string;
  player2Id : string;
  gameId : option string;
  matchResult : option EloCalculator.MatchResult;
  isComplete : bool
}.

Definition initialBoard : string :=
  "rnbqkbnr/pppppppp/8/8/8/8/PPPPPPPP/RNBQKBNR w KQkq - 0 1".

(** [for (let j = lo; j < hi; j++) body], over a state [T]; the body
    changes neither [j] nor the bound. *)
Fixpoint for_count {T} (count j : nat) (body : nat -> T -> M T) (t : T)
    : M T :=
  match count with
  | O => ret t
  | S count' => let* t' := body j t in for_count count' (S j) body t'
  end.
Definition for_range {T} (lo hi : nat) (body : nat -> T -> M T) (t : T)
    : M T :=
  for_count (hi - lo)%nat lo body t.

(** Reading [.userId] of an array element; out of range the element is
    [undefined] and the property access throws. *)
Definition userIdAt (l : list Participant) (i : nat) : M string :=
  match l !! i with
  | Some p => ret (userId p)
  | None => throw "TypeError: Cannot read properties of undefined"
  end.

(** The loop of [generateSingleEliminationRound], from index [i] on,
    with [matches] collected so far.  [i / 2] is exact: [i] stays even. *)
Equations pairingLoop (tournamentId : string)
    (shuffled : list Participant) (i : nat)
    (matches : list TournamentMatch) : M (list TournamentMatch)
    by wf (length shuffled - i)%nat lt :=
  pairingLoop tournamentId shuffled i matches
    with lt_dec i (length shuffled) := {
    | right _ := ret matches
    | left _ with lt_dec (i + 1) (length shuffled) := {
      | left _ :=
          let* white := userIdAt shuffled i in
          let* black := userIdAt shuffled (i + 1)%nat in
          let* game := createGame white black game_active tournamentId
                         true initialBoard [] in
          pairingLoop tournamentId shuffled (i + 2)%nat
            (matches ++
             [ {| id := "match_" +:+ pretty (i / 2 + 1)%nat;
                  player1Id := white;
                  player2Id := black;
                  gameId := Some (game_id game);
                  matchResult := None;
                  isComplete := false |} ])
      | right _ :=
          (* Bye - player advances automatically *)
          pairingLoop tournamentId shuffled (i + 2)%nat matches } }.
Next Obligation. lia. Qed.
Next Obligation. lia. Qed.

(** The body of the inner loop of [generateRoundRobinRound]. *)
Definition roundRobinBody (tournamentId : string)
    (participants : list Participant) (i j : nat)
    (matches : list TournamentMatch) : M (list TournamentMatch) :=
  let* white := userIdAt participants i in
  let* black := userIdAt participants j in
  let* game := createGame white black game_active tournamentId
                 true initialBoard [] in
  ret (matches ++
       [ {| id := "match_" +:+ pretty i +:+ "_" +:+ pretty j;
            player1Id := white;
            player2Id := black;
            gameId := Some (game_id game);
            matchResult := None;
            isComplete := false |} ]).

(** The source returns nothing and logs [matches.length]; the model
    returns the array [matches] itself. *)
Definition generateRoundRobinRound (tournamentId : string)
    (participants : list Participant) : M (list TournamentMatch) :=
  for_range 0 (length participants) (fun i matches =>
    for_range (i + 1)%nat (length participants)
      (roundRobinBody tournamentId participants i) matches) [].

(** In the source these two are stubs that return the empty array. *)
Definition getTournamentParticipants (tournamentId : string)
    : M (list Participant) := ret [].
Definition getRemainingPlayers (tournamentId : string)
    : M (list Participant) := ret [].

Definition getTournamentActiveGames (tid : string) : M (list Game) :=
  let* activeGames := getActiveGames in
  ret (List.filter
         (fun game => bool_decide (tournamentId game = Some tid))
         activeGames).

(** [updateTournament] with status, end time and [winnerId]; a key
    whose value is [undefined] is left out of the update.  The
    announcement goes to the messaging collaborator and is sent only
    when there is a winner; it is not modelled. *)
Definition completeTournament (tid : string) (winner : option string)
    : M unit :=
  try_catch
    (updateTournament tid
       {| set_tournament_status := Some completed;
          set_winnerId := winner |}).

Section WithShuffle.

(** [[...participants].sort(() => Math.random() - 0.5)]: some
    rearrangement of the array, chosen by the random source. *)
Variable shuffle : list Participant -> list Participant.

(** As for round robin, the model returns the array [matches]. *)
Definition generateSingleEliminationRound (tournamentId : string)
    (participants : list Participant) : M (list TournamentMatch) :=
  let shuffled := shuffle participants in
  pairingLoop tournamentId shuffled 0 [].

Definition generateDoubleEliminationRound := generateSingleEliminationRound.
Definition generateSwissRound := generateSingleEliminationRound.

Definition generateRound (tid : string) (participants : list Participant)
    : M unit :=
  let* tournament := getTournament tid in
  match tournament with
  | None => ret tt
  | Some t =>
    match rules t with
    | None => ret tt
    | Some settings =>
      match eliminationFormat settings with
      | single =>
          let* _ := generateSingleEliminationRound tid participants in ret tt
      | double =>
          let* _ := generateDoubleEliminationRound tid participants in ret tt
      | swiss =>
          let* _ := generateSwissRound tid participants in ret tt
      | round_robin =>
          let* _ := generateRoundRobinRound tid participants in ret tt
      end
    end
  end.

Definition checkRoundCompletion (tid : string) : M unit :=
  try_catch
    (let* tournament := getTournament tid in
     match tournament with
     | None => ret tt
     | Some t =>
       match tournament_status t with
       | active =>
         let* activeGames := getTournamentActiveGames tid in
         if (length activeGames =? 0)%nat then
           let* participants := getTournamentParticipants tid in
           let* remainingPlayers := getRemainingPlayers tid in
           if (length remainingPlayers <=? 1)%nat then
             completeTournament tid
               (option_map userId (head remainingPlayers))
           else generateRound tid remainingPlayers
         else ret tt
       | _ => ret tt
       end
     end).

(** The three writes of [Promise.all] are issued, and modelled, in
    the order written; one that the database refuses does not stop the
    others.  Each write stores values computed from the rows read at
    the start of the call. *)
Definition handleGameCompletion (gameId result : string) : M unit :=
  try_catch
    (let* game := getGame gameId in
     match game with
     | None => ret tt
     | Some game =>
       match truthy_string (tournamentId game) with
       | None => ret tt
       | Some tid =>
         let* tournament := getTournament tid in
         match tournament with
         | None => ret tt
         | Some _ =>
           let* _ :=
             match truthy_string (whitePlayerId game),
                   truthy_string (blackPlayerId game) with
             | Some whiteId, Some blackId =>
               let* whitePlayer := getUser whiteId in
               let* blackPlayer := getUser blackId in
               match whitePlayer, blackPlayer with
               | Some whitePlayer, Some blackPlayer =>
                 let* whiteEloChange :=
                   lift (Exports.calculateEloChange
                           (IZR (eloRating whitePlayer))
                           (IZR (eloRating blackPlayer)) result) in
                 let blackEloChange := (- whiteEloChange)%Z in
                 let won r (n : Z) :=
                   if decide (result = r) then (n + 1)%Z else n in
                 all
                   [ updateUser (user_id whitePlayer)
                       {| set_eloRating :=
                            Some (eloRating whitePlayer + whiteEloChange)%Z;
                          set_gamesPlayed :=
                            Some (gamesPlayed whitePlayer + 1)%Z;
                          set_gamesWon :=
                            Some (won "white_wins" (gamesWon whitePlayer));
                          set_gamesLost :=
                            Some (won "black_wins" (gamesLost whitePlayer));
                          set_gamesDrawn :=
                            Some (won "draw" (gamesDrawn whitePlayer)) |};
                     updateUser (user_id blackPlayer)
                       {| set_eloRating :=
                            Some (eloRating blackPlayer + blackEloChange)%Z;
                          set_gamesPlayed :=
                            Some (gamesPlayed blackPlayer + 1)%Z;
                          set_gamesWon :=
                            Some (won "black_wins" (gamesWon blackPlayer));
                          set_gamesLost :=
                            Some (won "white_wins" (gamesLost blackPlayer));
                          set_gamesDrawn :=
                            Some (won "draw" (gamesDrawn blackPlayer)) |};
                     updateGame gameId
                       {| set_status := None;
                          set_result := None;
                          set_whiteEloChange := Some whiteEloChange;
                          set_blackEloChange := Some blackEloChange |} ]
               | _, _ => ret tt
               end
             | _, _ => ret tt
             end in
           checkRoundCompletion tid
         end
       end
     end).

(** The notice goes to the messaging collaborator; the database is
    only read.  It is left out. *)
Definition notifyTournamentStart (tid : string)
    (participants : list Participant) : M unit := ret tt.

(** The [catch] block logs the error and throws it again, so the
    completion of the body is the completion of the call. *)
Definition startTournament (tid : string) : M bool :=
  let* tournament := getTournament tid in
  match tournament with
  | None => throw "Tournament not found"
  | Some t =>
    match tournament_status t with
    | upcoming =>
      let* participants := getTournamentParticipants tid in
      if (length participants <? 2)%nat then
        throw "Not enough participants to start tournament"
      else
        let* _ := updateTournament tid
          {| set_tournament_status := Some active;
             set_winnerId := None |} in
        let* _ := generateRound tid participants in
        let* _ := notifyTournamentStart tid participants in
        ret true
    | _ => throw "Tournament already started or completed"
    end
  end.

End WithShuffle.

End TournamentService.

(** ** [ChessBot] of [services/telegram-bot.ts]: the end of a game
    against the engine *)

Module ChessBot.
Import Schema Js Storage.
Local Open Scope storage_scope.

Record GameSession : Type := {
  chatId : Z;
  userId : string;
  board : string;
  gameId : option string;
  isPlayerTurn : bool;
  skillLevel : Z
}.

(** The database together with the bot's map of live sessions. *)
Record World : Type := {
  db : Db;
  activeSessions : gmap Z GameSession
}.

(** The database part of [handleGameEnd].  [result] goes into the
    enum column as it is; the [completedAt] column is not part of the
    modelled row.  The opponent is the engine, rated 1500. *)
Definition recordGameEnd (session : GameSession) (result : string) : M unit :=
  match truthy_string (gameId session) with
  | Some gid =>
    let* _ := updateGame gid
      {| set_status := Some game_completed;
         set_result := Some result;
         set_whiteEloChange := None;
         set_blackEloChange := None |} in
    let* dbUser := getUser (userId session) in
    match dbUser with
    | Some dbUser =>
      let* eloChange :=
        lift (Exports.calculateEloChange (IZR (eloRating dbUser)) 1500
                result) in
      updateUser (userId session)
        {| set_eloRating := Some (eloRating dbUser + eloChange)%Z;
           set_gamesPlayed := Some (gamesPlayed dbUser + 1)%Z;
           set_gamesWon :=
             Some (if decide (result = "white_wins")
                   then gamesWon dbUser + 1 else gamesWon dbUser)%Z;
           set_gamesLost := None;
           set_gamesDrawn := None |}
    | None => ret tt
    end
  | None => ret tt
  end.

(** [handleGameEnd] up to its last statement, the game-over message,
    which goes to the messaging collaborator.  There is no [try]: an
    exception leaves the function before the session is removed. *)
Definition handleGameEnd (chat : Z) (session : GameSession)
    (result : string) (w : World) : completion unit * World :=
  match recordGameEnd session result (db w) with
  | (Return _, db') =>
      (Return tt,
       {| db := db'; activeSessions := delete chat (activeSessions w) |})
  | (Throw message, db') =>
      (Throw message, {| db := db'; activeSessions := activeSessions w |})
  end.

End ChessBot.

(** ** Reference definitions

  What the specification says, written independently of the code. *)

Module Reference.
Import EloCalculator.
Local Open Scope R_scope.

(** Points a result is worth: win 1, draw 0.5, loss 0. *)
Definition points (g : GameResult) : R :=
  match g with
  | win => 1
  | draw_game => / 2
  | loss => 0
  end.

Fixpoint sumR (l : list R) : R :=
  match l with
  | [] => 0
  | x :: l' => x + sumR l'
  end.

(** The fractional score [p] of a list of results. *)
Definition fractionalScore (results : list GameRecord) : R :=
  sumR (map (fun g => points (result g)) results) / INR (length results).

Definition averageOpponent (results : list GameRecord) : R :=
  sumR (map opponentRating results) / INR (length results).

(** [400 * log10 (p / (1 - p))], fixed at the two ends. *)
Definition performanceOffset (p : R) : R :=
  if Req_dec_T p 1 then 400
  else if Req_dec_T p 0 then - 400
  else 400 * (ln (p / (1 - p)) / ln 10).

(** What the rounding error of the logarithm adds to the offset:
    nothing at the two ends, where no logarithm is taken. *)
Definition drift (rounding p : R) : R :=
  if Req_dec_T p 1 then 0
  else if Req_dec_T p 0 then 0
  else performanceOffset p * rounding.

(** The value in force for an optional setting read with [||]: the
    supplied one when it is not zero, the default otherwise. *)
Definition in_force (supplied : option R) (default value : R) : Prop :=
  (supplied = Some value /\ value <> 0) \/
  ((supplied = None \/ supplied = Some 0) /\ value = default).

(** Every element paired with each later element of the list. *)
Fixpoint all_pairs {A} (l : list A) : list (A * A) :=
  match l with
  | [] => []
  | a :: l' => map (pair a) l' ++ all_pairs l'
  end.

(** The two players of a match, in order, and as a pair. *)
Definition seats (m : TournamentService.TournamentMatch) : list string :=
  [TournamentService.player1Id m; TournamentService.player2Id m].
Definition pairing (m : TournamentService.TournamentMatch)
    : string * string :=
  (TournamentService.player1Id m, TournamentService.player2Id m).

(** Does a pairing put [a] against [b], in either order? *)
Definition pairs_up (a b : string) (m : string * string) : bool :=
  bool_decide (m = (a, b) \/ m = (b, a)).

(** In [db], [gameId] names a game of tournament [tid] between the two
    distinct stored players [white] and [black].  Nothing is asked of
    the game's status. *)
Definition tournament_game (db : Storage.Db) (gameId : string)
    (game : Schema.Game) (tid : string) (white black : Schema.User)
    : Prop :=
  Storage.games db !! gameId = Some game /\
  Schema.tournamentId game = Some tid /\ tid <> EmptyString /\
  is_Some (Storage.tournaments db !! tid) /\
  Schema.whitePlayerId game = Some (Schema.user_id white) /\
  Schema.user_id white <> EmptyString /\
  Schema.blackPlayerId game = Some (Schema.user_id black) /\
  Schema.user_id black <> EmptyString /\
  Storage.users db !! Schema.user_id white = Some white /\
  Storage.users db !! Schema.user_id black = Some black /\
  Schema.user_id white <> Schema.user_id black.

(** The five [integer] columns of a user are within [bound] of zero. *)
Definition within (bound : Z) (u : Schema.User) : Prop :=
  (Z.abs (Schema.eloRating u) <= bound /\
   Z.abs (Schema.gamesPlayed u) <= bound /\
   Z.abs (Schema.gamesWon u) <= bound /\
   Z.abs (Schema.gamesLost u) <= bound /\
   Z.abs (Schema.gamesDrawn u) <= bound)%Z.

(** They are within two thousand million of zero, so that some rating
    changes and some more games still fit the columns. *)
Definition has_room (u : Schema.User) : Prop := within 2000000000 u.

(** Every participant is a stored user. *)
Definition all_registered (db : Storage.Db)
    (participants : list Schema.Participant) : Prop :=
  List.Forall (fun p => is_Some (Storage.users db !! Schema.userId p))
    participants.

(** The result strings the exported [calculateEloChange] accepts. *)
Definition accepted_results : list string :=
  ["white_wins"; "player1_wins"; "win";
   "black_wins"; "player2_wins"; "loss"; "draw"].

(** In [db], match [m] of tournament [tid] refers to a stored game that
    is active, rated, belongs to [tid] and seats the same two players. *)
Definition game_of_match (tid : string) (db : Storage.Db)
    (m : TournamentService.TournamentMatch) : Prop :=
  exists gid g,
    TournamentService.gameId m = Some gid /\
    Storage.games db !! gid = Some g /\
    Schema.game_id g = gid /\
    Schema.whitePlayerId g = Some (TournamentService.player1Id m) /\
    Schema.blackPlayerId g = Some (TournamentService.player2Id m) /\
    Schema.status g = Schema.game_active /\
    Schema.isRated g = true /\
    Schema.tournamentId g = Some tid.

(** The order of the four reliability buckets. *)
Definition category_rank (c : EloCalculator.ReliabilityCategory) : nat :=
  match c with
  | EloCalculator.provisional => 0
  | EloCalculator.established => 1
  | EloCalculator.reliable => 2
  | EloCalculator.highly_reliable => 3
  end.

(** The game identifier of match [m] was issued by [db]'s serial. *)
Definition issued (db : Storage.Db) (m : TournamentService.TournamentMatch)
    : Prop :=
  exists k : nat,
    (k < Storage.serial db)%nat /\
    TournamentService.gameId m = Some (pretty k).

(** Every match of [ms] has its game stored in [db]. *)
Definition all_stored (tid : string) (db : Storage.Db)
    (ms : list TournamentService.TournamentMatch) : Prop :=
  List.Forall (fun m => issued db m /\ game_of_match tid db m) ms.

(** The name of the [k]-th match (from 0) of a single-elimination
    round. *)
Definition match_name (k : nat) : string := "match_" +:+ pretty (k + 1)%nat.

(** No stored game of tournament [tid] is active. *)
Definition no_active_game (tid : string) (db : Storage.Db) : Prop :=
  forall gid g,
    Storage.games db !! gid = Some g ->
    Schema.status g = Schema.game_active ->
    Schema.tournamentId g <> Some tid.

(** A tournament row with its status set to completed. *)
Definition completed_row (t : Schema.Tournament) : Schema.Tournament :=
  {| Schema.tournament_id := Schema.tournament_id t;
     Schema.tournament_status := Schema.completed;
     Schema.winnerId := Schema.winnerId t;
     Schema.rules := Schema.rules t |}.

(** A database with another table of tournaments. *)
Definition with_tournaments (db : Storage.Db)
    (ts : gmap string Schema.Tournament) : Storage.Db :=
  {| Storage.users := Storage.users db;
     Storage.games := Storage.games db;
     Storage.tournaments := ts;
     Storage.serial := Storage.serial db |}.

End Reference.

(** ** Concrete inputs used below *)

Module Examples.
Import EloCalculator Schema Storage.

(** A K-factor override of zero, everything else absent. *)
Definition zeroKFactor : EloCalculationOptions :=
  {| kFactor := Some 0%R; provisionalThreshold := None;
     ratingFloor := None; ratingCeiling := None |}.

(** A floor above the default ceiling. *)
Definition highFloor : EloCalculationOptions :=
  {| kFactor := None; provisionalThreshold := None;
     ratingFloor := Some 3500%R; ratingCeiling := None |}.



Definition emptyDb : Db :=
  {| users := ∅; games := ∅; tournaments := ∅; serial := 0 |}.

(** Three participants, and a database in which they are users. *)
Definition trio : list Participant :=
  [ {| userId := "a" |}; {| userId := "b" |}; {| userId := "c" |} ].

Definition newcomer (name : string) : User :=
  {| user_id := name; eloRating := 1200; gamesPlayed := 0;
     gamesWon := 0; gamesLost := 0; gamesDrawn := 0 |}.

Definition trioDb : Db :=
  {| users := <["a" := newcomer "a"]>
                (<["b" := newcomer "b"]> (<["c" := newcomer "c"]> ∅));
     games := ∅; tournaments := ∅; serial := 0 |}.

(** A round-robin tournament entered by the three, and the same
    tournament in a database that holds no user. *)
Definition league : Tournament :=
  {| tournament_id := "t1"; tournament_status := active;
     winnerId := None;
     rules := Some {| maxParticipants := 16; isRatedSetting := true;
                      autoStart := false; autoAdvance := true;
                      eliminationFormat := round_robin |} |}.

Definition leagueDb : Db :=
  {| users := users trioDb; games := ∅;
     tournaments := <["t1" := league]> ∅; serial := 0 |}.

Definition strangersDb : Db :=
  {| users := ∅; games := ∅;
     tournaments := <["t1" := league]> ∅; serial := 0 |}.

(** The matches the two generators return for them (no shuffling). *)
Definition trio_single_elimination : list TournamentService.TournamentMatch :=
  match fst (TournamentService.generateSingleEliminationRound
               (fun l => l) "t" trio trioDb) with
  | Js.Return matches => matches
  | Js.Throw _ => []
  end.
Definition trio_round_robin : list TournamentService.TournamentMatch :=
  match fst (TournamentService.generateRoundRobinRound "t" trio trioDb) with
  | Js.Return matches => matches
  | Js.Throw _ => []
  end.

(** Two established players rated 1200, and a tournament game between
    them that is already marked completed. *)
Definition player (name : string) : User :=
  {| user_id := name; eloRating := 1200; gamesPlayed := 50;
     gamesWon := 20; gamesLost := 20; gamesDrawn := 10 |}.

Definition finishedGame : Game :=
  {| game_id := "g1";
     whitePlayerId := Some "w"; blackPlayerId := Some "b";
     status := game_completed;
     boardState := TournamentService.initialBoard;
     moveHistory := [];
     game_result := None;
     whiteEloChange := 0; blackEloChange := 0;
     isRated := true;
     tournamentId := Some "t1" |}.

Definition runningTournament : Tournament :=
  {| tournament_id := "t1"; tournament_status := active;
     winnerId := None; rules := None |}.

Definition tournamentDb : Db :=
  {| users := <["w" := player "w"]> (<["b" := player "b"]> ∅);
     games := <["g1" := finishedGame]> ∅;
     tournaments := <["t1" := runningTournament]> ∅;
     serial := 0 |}.

(** A live session of player "w" in chat 7, playing game "e1" against
    the engine. *)
Definition engineGame : Game :=
  {| game_id := "e1";
     whitePlayerId := Some "w"; blackPlayerId := None;
     status := game_active;
     boardState := TournamentService.initialBoard;
     moveHistory := [];
     game_result := None;
     whiteEloChange := 0; blackEloChange := 0;
     isRated := true;
     tournamentId := None |}.

Definition engineSession : ChessBot.GameSession :=
  {| ChessBot.chatId := 7; ChessBot.userId := "w";
     ChessBot.board := TournamentService.initialBoard;
     ChessBot.gameId := Some "e1";
     ChessBot.isPlayerTurn := true; ChessBot.skillLevel := 5 |}.

Definition engineWorld : ChessBot.World :=
  {| ChessBot.db :=
       {| users := <["w" := player "w"]> ∅;
          games := <["e1" := engineGame]> ∅;
          tournaments := ∅;
          serial := 0 |};
     ChessBot.activeSessions := <[7%Z := engineSession]> ∅ |}.

(** A session that never got a game. *)
Definition idleSession : ChessBot.GameSession :=
  {| ChessBot.chatId := 7; ChessBot.userId := "w";
     ChessBot.board := TournamentService.initialBoard;
     ChessBot.gameId := None;
     ChessBot.isPlayerTurn := true; ChessBot.skillLevel := 5 |}.

End Examples.

(** * Proofs *)

(** ** Rounding and powers of ten *)

Section Numbers.
Import Js.
Local Open Scope R_scope.

Lemma round_spec (x : R) (z : Z) :
  IZR z - / 2 <= x < IZR z + / 2 -> round x = z.
Proof.
  intros [Hlo Hhi]. unfold round. symmetry.
  apply Int_part_spec. lra.
Qed.

Lemma round_IZR (z : Z) : round (IZR z) = z.
Proof. apply round_spec. lra. Qed.

Lemma round_bounds (x : R) :
  x - / 2 < IZR (round x) <= x + / 2.
Proof.
  unfold round. destruct (base_Int_part (x + / 2)) as [H1 H2]. lra.
Qed.

Lemma round_plus_IZR (z : Z) (x : R) :
  round (IZR z + x) = (z + round x)%Z.
Proof.
  apply round_spec. rewrite plus_IZR.
  pose proof (round_bounds x). lra.
Qed.

Lemma pow10_pos (x : R) : 0 < pow10 x.
Proof. unfold pow10, Rpower. apply exp_pos. Qed.

Lemma pow10_0 : pow10 0 = 1.
Proof. unfold pow10. apply Rpower_O. lra. Qed.

Lemma pow10_1 : pow10 1 = 10.
Proof. unfold pow10. apply Rpower_1. lra. Qed.

Lemma pow10_plus (x y : R) : pow10 (x + y) = pow10 x * pow10 y.
Proof. unfold pow10. apply Rpower_plus. Qed.

Lemma pow10_opp (x : R) : pow10 (- x) = / pow10 x.
Proof. unfold pow10. apply Rpower_Ropp. Qed.

Lemma ln10_pos : 0 < ln 10.
Proof. rewrite <- ln_1. apply ln_increasing; lra. Qed.

Lemma pow10_log10 (x : R) : 0 < x -> pow10 (log10 x) = x.
Proof.
  intros Hx. unfold pow10, log10, Rpower.
  replace (ln x / ln 10 * ln 10) with (ln x).
  - apply exp_ln, Hx.
  - field. pose proof ln10_pos. lra.
Qed.

Lemma pow10_lt (x y : R) : x < y -> pow10 x < pow10 y.
Proof. intros H. unfold pow10. apply Rpower_lt; lra. Qed.

Lemma pow10_le (x y : R) : x <= y -> pow10 x <= pow10 y.
Proof. intros H. unfold pow10. apply Rle_Rpower; lra. Qed.

(** [pow10 (m / n)] is the [n]-th root of [10 ^ m]. *)
Lemma pow10_root (m n : nat) :
  (0 < n)%nat -> pow10 (INR m / INR n) ^ n = 10 ^ m.
Proof.
  intros Hn. unfold pow10.
  rewrite <- Rpower_pow by (apply exp_pos).
  rewrite Rpower_mult.
  replace (INR m / INR n * INR n) with (INR m).
  - apply Rpower_pow. lra.
  - field. apply not_0_INR. lia.
Qed.

Lemma pow10_root_gt (y : R) (m n : nat) :
  (0 < n)%nat -> 0 <= y -> y ^ n < 10 ^ m -> y < pow10 (INR m / INR n).
Proof.
  intros Hn Hy Hlt.
  destruct (Rlt_le_dec y (pow10 (INR m / INR n))) as [H | H]; [exact H |].
  exfalso.
  assert (H' : pow10 (INR m / INR n) ^ n <= y ^ n).
  { apply pow_incr. pose proof (pow10_pos (INR m / INR n)). lra. }
  rewrite pow10_root in H' by exact Hn. lra.
Qed.

Lemma pow10_root_lt (y : R) (m n : nat) :
  (0 < n)%nat -> 0 <= y -> 10 ^ m < y ^ n -> pow10 (INR m / INR n) < y.
Proof.
  intros Hn Hy Hlt.
  destruct (Rlt_le_dec (pow10 (INR m / INR n)) y) as [H | H]; [exact H |].
  exfalso.
  assert (H' : y ^ n <= pow10 (INR m / INR n) ^ n).
  { apply pow_incr. lra. }
  rewrite pow10_root in H' by exact Hn. lra.
Qed.

(** Bounding [pow10 x] for rational [x = m / n] by a ratio [a / b]: it
    is enough to compare [10 ^ m * b ^ n] with [a ^ n] in [Z]. *)
Lemma pow10_lt_ratio (x : R) (m n a b : Z) :
  (0 <= m)%Z -> (0 < n)%Z -> (0 < b)%Z -> (0 <= a)%Z ->
  x * IZR n = IZR m ->
  (10 ^ m * b ^ n < a ^ n)%Z ->
  pow10 x < IZR a / IZR b.
Proof.
  intros Hm Hn Hb Ha Hx Hlt.
  assert (Hn' : IZR n <> 0) by (apply not_0_IZR; lia).
  assert (Hb' : 0 < IZR b) by (apply IZR_lt, Hb).
  replace x with (INR (Z.to_nat m) / INR (Z.to_nat n)).
  2:{ rewrite !INR_IZR_INZ, !Z2Nat.id by lia.
      apply (Rmult_eq_reg_r (IZR n)); [| exact Hn'].
      rewrite Hx. field. exact Hn'. }
  apply pow10_root_lt; [lia | |].
  - apply Rmult_le_pos; [apply IZR_le, Ha |].
    left. apply Rinv_0_lt_compat, Hb'.
  - apply IZR_lt in Hlt. rewrite mult_IZR in Hlt.
    rewrite <- (Z2Nat.id m), <- (Z2Nat.id n) in Hlt by lia.
    rewrite <- !pow_IZR in Hlt.
    unfold Rdiv. rewrite Rpow_mult_distr, pow_inv.
    apply (Rmult_lt_reg_r (IZR b ^ Z.to_nat n)); [apply pow_lt, Hb' |].
    rewrite Rmult_assoc, Rinv_l, Rmult_1_r; [exact Hlt |].
    apply pow_nonzero. lra.
Qed.

Lemma pow10_gt_ratio (x : R) (m n a b : Z) :
  (0 <= m)%Z -> (0 < n)%Z -> (0 < b)%Z -> (0 <= a)%Z ->
  x * IZR n = IZR m ->
  (a ^ n < 10 ^ m * b ^ n)%Z ->
  IZR a / IZR b < pow10 x.
Proof.
  intros Hm Hn Hb Ha Hx Hlt.
  assert (Hn' : IZR n <> 0) by (apply not_0_IZR; lia).
  assert (Hb' : 0 < IZR b) by (apply IZR_lt, Hb).
  replace x with (INR (Z.to_nat m) / INR (Z.to_nat n)).
  2:{ rewrite !INR_IZR_INZ, !Z2Nat.id by lia.
      apply (Rmult_eq_reg_r (IZR n)); [| exact Hn'].
      rewrite Hx. field. exact Hn'. }
  apply pow10_root_gt; [lia | |].
  - apply Rmult_le_pos; [apply IZR_le, Ha |].
    left. apply Rinv_0_lt_compat, Hb'.
  - apply IZR_lt in Hlt. rewrite mult_IZR in Hlt.
    rewrite <- (Z2Nat.id m), <- (Z2Nat.id n) in Hlt by lia.
    rewrite <- !pow_IZR in Hlt.
    unfold Rdiv. rewrite Rpow_mult_distr, pow_inv.
    apply (Rmult_lt_reg_r (IZR b ^ Z.to_nat n)); [apply pow_lt, Hb' |].
    rewrite Rmult_assoc, Rinv_l, Rmult_1_r; [exact Hlt |].
    apply pow_nonzero. lra.
Qed.

Lemma round_le (x y : R) : x <= y -> (round x <= round y)%Z.
Proof.
  intros H. pose proof (round_bounds x). pose proof (round_bounds y).
  apply Z.lt_succ_r, lt_IZR. rewrite succ_IZR. lra.
Qed.

Lemma round_between (x : R) (lo hi : Z) :
  IZR lo - / 2 <= x -> x < IZR hi + / 2 -> (lo <= round x <= hi)%Z.
Proof.
  intros Hlo Hhi. pose proof (round_bounds x) as Hr.
  assert (H1 : (lo - 1 < round x)%Z)
    by (apply lt_IZR; rewrite minus_IZR; lra).
  assert (H2 : (round x < hi + 1)%Z)
    by (apply lt_IZR; rewrite plus_IZR; lra).
  lia.
Qed.


End Numbers.

(** ** The rating engine *)

Section RatingEngine.
Import Js EloCalculator Reference Examples.
Local Open Scope R_scope.

Lemma expectedScore_pos_lt_1 (a b : R) :
  0 < calculateExpectedScore a b < 1.
Proof.
  unfold calculateExpectedScore.
  pose proof (pow10_pos ((b - a) / 400)) as Hp.
  split.
  - apply Rdiv_lt_0_compat; lra.
  - apply (Rmult_lt_reg_r (1 + pow10 ((b - a) / 400))); [lra |].
    field_simplify; lra.
Qed.

Lemma expectedScore_equal (a : R) : calculateExpectedScore a a = / 2.
Proof.
  unfold calculateExpectedScore.
  replace ((a - a) / 400) with 0 by field.
  rewrite pow10_0. field.
Qed.

Lemma kFactor_default_established (rating games : R) :
  30 <= games -> rating < 2100 -> calculateKFactor rating games None = 40.
Proof.
  intros Hg Hr. unfold calculateKFactor, or_else, opt_field, truthy.
  unfold PROVISIONAL_GAMES_THRESHOLD, HIGH_RATING_THRESHOLD,
    LOW_RATING_K_FACTOR.
  destruct (Rlt_dec games 30); [lra |].
  destruct (Rge_dec rating 2400); [lra |].
  destruct (Rge_dec rating 2100); [lra | reflexivity].
Qed.

Lemma clamp_id (lo hi x : R) : lo <= x <= hi -> max lo (min hi x) = x.
Proof.
  intros [H1 H2]. unfold max, min.
  rewrite (Rmin_right hi x) by exact H2. apply Rmax_right, H1.
Qed.

Lemma clamp_bounds (lo hi x : R) :
  lo <= hi -> lo <= max lo (min hi x) <= hi.
Proof.
  intros H. unfold max, min. split.
  - apply Rmax_l.
  - apply Rmax_lub; [exact H | apply Rmin_l].
Qed.

Lemma clamp_crossed (lo hi x : R) : hi < lo -> max lo (min hi x) = lo.
Proof.
  intros H. unfold max, min. apply Rmax_left.
  pose proof (Rmin_l hi x). lra.
Qed.

(** What scenario 2 evaluates to. *)
Lemma scenario2_value :
  calculateNewRatings 1200 1200 50 50 player1_wins None
  = {| newRatingPlayer1 := 1220; newRatingPlayer2 := 1180;
       changePlayer1 := 1220 - 1200; changePlayer2 := 1180 - 1200 |}.
Proof.
  unfold calculateNewRatings.
  rewrite expectedScore_equal, kFactor_default_established by lra.
  replace (40 * (1 - / 2)) with (IZR 20) by lra.
  replace (40 * (0 - / 2)) with (IZR (-20)) by lra.
  rewrite !round_IZR.
  unfold or_else, opt_field, truthy, RATING_FLOOR, RATING_CEILING.
  replace (1200 + 20) with 1220 by lra.
  replace (1200 + -20) with 1180 by lra.
  rewrite !clamp_id by lra. reflexivity.
Qed.

(** C1, as stated, fails: the change of player 1 is not +16. *)
Lemma C1_scenario2_is_not_16 :
  ~ (changePlayer1 (calculateNewRatings 1200 1200 50 50 player1_wins None) = 16
     /\ changePlayer2 (calculateNewRatings 1200 1200 50 50 player1_wins None)
        = - 16).
Proof. rewrite scenario2_value. simpl. lra. Qed.

(** C1, amended.  [calculateNewRatings 1200 1200 50 50 player1_wins]
    with no options changes player 1 by +20 and player 2 by -20 (new
    ratings 1220 and 1180): the expected score is 0.5 on both sides and
    both established players rated below 2100 receive K-factor 40. *)
Theorem C1_scenario2 :
  let r := calculateNewRatings 1200 1200 50 50 player1_wins None in
  changePlayer1 r = 20 /\ changePlayer2 r = - 20 /\
  newRatingPlayer1 r = 1220 /\ newRatingPlayer2 r = 1180 /\
  calculateKFactor 1200 50 None = 40 /\
  calculateExpectedScore 1200 1200 = / 2.
Proof.
  cbv zeta. rewrite scenario2_value. simpl.
  rewrite expectedScore_equal, kFactor_default_established by lra.
  repeat split; lra.
Qed.

(** Reading an optional setting with [||] yields the value in force. *)
Lemma or_else_in_force (supplied : option R) (default value : R) :
  in_force supplied default value -> or_else supplied default = value.
Proof.
  unfold in_force, or_else, truthy.
  intros [[-> Hne] | [[-> | ->] ->]].
  - destruct (Req_dec_T value 0); [contradiction | reflexivity].
  - reflexivity.
  - destruct (Req_dec_T 0 0); [reflexivity | lra].
Qed.

Lemma in_force_default (default : R) : in_force None default default.
Proof. right. split; [left |]; reflexivity. Qed.

(** C3, as stated, fails: a supplied override of 0 is not returned. *)
Lemma C3_zero_override_ignored :
  kFactor zeroKFactor = Some 0 /\
  calculateKFactor 2500 50 (Some zeroKFactor) = 16 /\
  calculateKFactor 2500 50 (Some zeroKFactor) <> 0.
Proof.
  assert (H : calculateKFactor 2500 50 (Some zeroKFactor) = 16).
  { unfold calculateKFactor, or_else, opt_field, truthy; simpl.
    unfold PROVISIONAL_GAMES_THRESHOLD, HIGH_RATING_THRESHOLD,
      HIGH_RATING_K_FACTOR.
    destruct (Req_dec_T 0 0); [| lra].
    destruct (Rlt_dec 50 30); [lra |].
    destruct (Rge_dec 2500 2400); [reflexivity | lra]. }
  rewrite H. repeat split. lra.
Qed.

(** C3, amended.  [calculateKFactor] returns the override when one is
    supplied and is not zero.  Otherwise (override absent or zero) let
    the threshold be the supplied provisional threshold when that is
    not zero and 30 when it is absent or zero: below the threshold the
    result is 40 whatever the rating; at or above it the result is 16
    for rating >= 2400, 32 for 2100 <= rating < 2400 and 40 below
    2100. *)
Theorem C3_kFactor_cases (rating games : R)
    (options : option EloCalculationOptions) :
  (forall k, opt_field kFactor options = Some k -> k <> 0 ->
     calculateKFactor rating games options = k) /\
  (forall threshold,
     opt_field kFactor options = None \/
     opt_field kFactor options = Some 0 ->
     in_force (opt_field provisionalThreshold options) 30 threshold ->
     (games < threshold -> calculateKFactor rating games options = 40) /\
     (threshold <= games -> 2400 <= rating ->
        calculateKFactor rating games options = 16) /\
     (threshold <= games -> 2100 <= rating < 2400 ->
        calculateKFactor rating games options = 32) /\
     (threshold <= games -> rating < 2100 ->
        calculateKFactor rating games options = 40)).
Proof.
  split.
  - intros k Hk Hk0. unfold calculateKFactor, truthy. rewrite Hk.
    destruct (Req_dec_T k 0); [contradiction | reflexivity].
  - intros threshold Hk Ht.
    assert (Hnone : truthy (opt_field kFactor options) = None).
    { unfold truthy. destruct Hk as [-> | ->]; [reflexivity |].
      destruct (Req_dec_T 0 0); [reflexivity | lra]. }
    apply or_else_in_force in Ht.
    unfold calculateKFactor. rewrite Hnone.
    unfold PROVISIONAL_GAMES_THRESHOLD. rewrite Ht.
    unfold HIGH_RATING_THRESHOLD, LOW_RATING_K_FACTOR,
      MEDIUM_RATING_K_FACTOR, HIGH_RATING_K_FACTOR.
    repeat split; intros;
      destruct (Rlt_dec games threshold);
      destruct (Rge_dec rating 2400);
      destruct (Rge_dec rating 2100); try reflexivity; lra.
Qed.

Lemma C3_kFactor_cases_witness :
  calculateKFactor 2500 10 None = 40 /\
  calculateKFactor 2500 50 None = 16.
Proof.
  destruct (C3_kFactor_cases 2500 10 None) as [_ H1].
  destruct (C3_kFactor_cases 2500 50 None) as [_ H2].
  assert (Hk : opt_field kFactor None = None \/
               opt_field kFactor None = Some 0) by (left; reflexivity).
  split.
  - destruct (H1 30 Hk (in_force_default 30)) as [Hprov _].
    apply Hprov. lra.
  - destruct (H2 30 Hk (in_force_default 30)) as (_ & Hhigh & _).
    apply Hhigh; lra.
Defined.

(** C4, as stated, fails: with the floor raised to 3500 and the default
    ceiling 3000 the new rating is 3500, above the ceiling. *)
Lemma C4_floor_above_ceiling :
  let r := calculateNewRatings 1200 1200 50 50 player1_wins
             (Some highFloor) in
  newRatingPlayer1 r = 3500 /\ ~ (3500 <= newRatingPlayer1 r <= 3000).
Proof.
  cbv zeta.
  assert (H : newRatingPlayer1
                (calculateNewRatings 1200 1200 50 50 player1_wins
                   (Some highFloor)) = 3500).
  { unfold calculateNewRatings; simpl.
    rewrite (or_else_in_force (Some 3500) RATING_FLOOR 3500)
      by (left; split; [reflexivity | lra]).
    rewrite (or_else_in_force None RATING_CEILING 3000)
      by apply in_force_default.
    apply clamp_crossed. lra. }
  rewrite H. split; [reflexivity | lra].
Qed.

(** C4, amended.  Let floor and ceiling be the values in force: the
    option when it is supplied and not zero, otherwise 100 and 3000.
    Whenever floor <= ceiling, both new ratings returned by
    [calculateNewRatings] lie within [floor, ceiling], for all ratings,
    games-played counts and outcomes. *)
Theorem C4_new_ratings_clamped
    (player1Rating player2Rating player1Games player2Games : R)
    (outcome : MatchResult) (options : option EloCalculationOptions)
    (floor ceiling : R) :
  in_force (opt_field ratingFloor options) 100 floor ->
  in_force (opt_field ratingCeiling options) 3000 ceiling ->
  floor <= ceiling ->
  let r := calculateNewRatings player1Rating player2Rating
             player1Games player2Games outcome options in
  floor <= newRatingPlayer1 r <= ceiling /\
  floor <= newRatingPlayer2 r <= ceiling.
Proof.
  intros Hf Hc Hle. cbv zeta.
  apply or_else_in_force in Hf. apply or_else_in_force in Hc.
  unfold calculateNewRatings, RATING_FLOOR, RATING_CEILING.
  destruct outcome; simpl; rewrite Hf, Hc;
    split; apply clamp_bounds, Hle.
Qed.

Lemma C4_new_ratings_clamped_witness :
  let r := calculateNewRatings 2990 110 50 50 player1_wins None in
  100 <= newRatingPlayer1 r <= 3000 /\ 100 <= newRatingPlayer2 r <= 3000.
Proof.
  apply (C4_new_ratings_clamped 2990 110 50 50 player1_wins None 100 3000).
  - apply in_force_default.
  - apply in_force_default.
  - lra.
Defined.

(** With floor above ceiling the clamp returns the floor. *)
Lemma new_ratings_crossed_bounds
    (player1Rating player2Rating player1Games player2Games : R)
    (outcome : MatchResult) (options : option EloCalculationOptions)
    (floor ceiling : R) :
  in_force (opt_field ratingFloor options) 100 floor ->
  in_force (opt_field ratingCeiling options) 3000 ceiling ->
  ceiling < floor ->
  newRatingPlayer1 (calculateNewRatings player1Rating player2Rating
                      player1Games player2Games outcome options) = floor.
Proof.
  intros Hf Hc Hlt.
  apply or_else_in_force in Hf. apply or_else_in_force in Hc.
  unfold calculateNewRatings, RATING_FLOOR, RATING_CEILING.
  destruct outcome; simpl; rewrite Hf, Hc; apply clamp_crossed, Hlt.
Qed.

(** C8.  For all ratings [a] and [b] the two expected scores add up to
    1 (exactly, in real arithmetic), and for equal ratings the expected
    score is 0.5. *)
Theorem C8_expected_scores_complementary :
  (forall a b : R,
     calculateExpectedScore a b + calculateExpectedScore b a = 1) /\
  (forall a b : R, a = b -> calculateExpectedScore a b = / 2).
Proof.
  split.
  - intros a b. unfold calculateExpectedScore.
    replace ((a - b) / 400) with (- ((b - a) / 400)) by field.
    rewrite pow10_opp.
    pose proof (pow10_pos ((b - a) / 400)) as Hp.
    field. split; lra.
  - intros a b ->. apply expectedScore_equal.
Qed.

Lemma C8_expected_scores_complementary_witness :
  calculateExpectedScore 1500 1500 = / 2.
Proof.
  destruct C8_expected_scores_complementary as [_ H].
  apply (H 1500 1500). reflexivity.
Defined.

(** C9.  [calculateRequiredRating] lets a [NaN] target score through:
    both comparisons of the guard are false on it, nothing is thrown and
    [NaN] is returned, although [NaN] is not between 0 and 1.  On every
    other target score it throws exactly when the score is not strictly
    between 0 and 1, and strictly between 0 and 1 it returns an
    integer. *)
Theorem C9_requiredRating_passes_NaN (opponent : R) :
  calculateRequiredRating opponent NaN = Return NotANumber /\
  (forall target : R,
     ((exists message,
         calculateRequiredRating opponent (Finite target) = Throw message)
      <-> ~ (0 < target < 1)) /\
     (0 < target < 1 ->
      exists rating : Z,
        calculateRequiredRating opponent (Finite target)
        = Return (Integer rating))).
Proof.
  split; [reflexivity |].
  intros target. unfold calculateRequiredRating, lte, gte.
  destruct (Rle_dec target 0) as [H0 | H0];
    [| destruct (Rge_dec target 1) as [H1 | H1]]; cbn.
  - split; [split |]; intros; try lra. eexists; reflexivity.
  - split; [split |]; intros; try lra. eexists; reflexivity.
  - split; [split |].
    + intros [message Hm]. discriminate Hm.
    + intros Hn. exfalso. apply Hn. lra.
    + intros _. eexists; reflexivity.
Qed.

Lemma C9_requiredRating_passes_NaN_witness :
  exists rating : Z,
    calculateRequiredRating 1600 (Finite (/ 2)) = Return (Integer rating).
Proof.
  destruct (C9_requiredRating_passes_NaN 1600) as [_ H].
  destruct (H (/ 2)) as [_ H']. apply H'. lra.
Defined.

(** C10.  On the empty list [calculatePerformanceRating] returns 0; it
    does not throw. *)
Theorem C10_performance_of_no_games (rounding : R) :
  calculatePerformanceRating rounding [] = 0%Z.
Proof. reflexivity. Qed.

Lemma kFactor_default_values (rating games : R) :
  calculateKFactor rating games None = 16 \/
  calculateKFactor rating games None = 32 \/
  calculateKFactor rating games None = 40.
Proof.
  unfold calculateKFactor, or_else, opt_field, truthy.
  unfold HIGH_RATING_K_FACTOR, MEDIUM_RATING_K_FACTOR, LOW_RATING_K_FACTOR.
  destruct (Rlt_dec games PROVISIONAL_GAMES_THRESHOLD); [auto |].
  destruct (Rge_dec rating HIGH_RATING_THRESHOLD); [auto |].
  destruct (Rge_dec rating 2100); auto.
Qed.

Lemma exported_throws (a b : R) (result : string) :
  ~ In result accepted_results ->
  Exports.calculateEloChange a b result
  = Throw ("Invalid game result: " +:+ result).
Proof.
  unfold Exports.calculateEloChange, accepted_results. intros Hn.
  destruct (decide (result = "white_wins" \/ result = "player1_wins"
                    \/ result = "win")) as [Hw | Hw];
    [exfalso; apply Hn; simpl; intuition |].
  destruct (decide (result = "black_wins" \/ result = "player2_wins"
                    \/ result = "loss")) as [Hl | Hl];
    [exfalso; apply Hn; simpl; intuition |].
  destruct (decide (result = "draw")) as [Hd | Hd];
    [exfalso; apply Hn; simpl; intuition | reflexivity].
Qed.

Lemma class_eloChange_size (a b : R) (r : GameResult) (g : option R) :
  (- 40 <= calculateEloChange a b r g <= 40)%Z.
Proof.
  unfold calculateEloChange.
  pose proof (expectedScore_pos_lt_1 a b) as He.
  set (e := calculateExpectedScore a b) in *.
  set (games := match g with Some g => g | None => 50 end).
  destruct (kFactor_default_values a games) as [-> | [-> | ->]];
    destruct r; unfold actualScoreOf; apply round_between; nra.
Qed.

Lemma exported_returns_bounded (a b : R) (result : string) :
  In result accepted_results ->
  exists change : Z,
    Exports.calculateEloChange a b result = Return change /\
    (- 40 <= change <= 40)%Z.
Proof.
  unfold Exports.calculateEloChange, accepted_results. intros Hin.
  destruct (decide (result = "white_wins" \/ result = "player1_wins"
                    \/ result = "win")) as [Hw | Hw];
    [eexists; split; [reflexivity | apply class_eloChange_size] |].
  destruct (decide (result = "black_wins" \/ result = "player2_wins"
                    \/ result = "loss")) as [Hl | Hl];
    [eexists; split; [reflexivity | apply class_eloChange_size] |].
  destruct (decide (result = "draw")) as [Hd | Hd];
    [eexists; split; [reflexivity | apply class_eloChange_size] |].
  exfalso. simpl in Hin. intuition congruence.
Qed.

Lemma exported_return_size (a b : R) (result : string) (change : Z) :
  Exports.calculateEloChange a b result = Return change ->
  (- 40 <= change <= 40)%Z.
Proof.
  unfold Exports.calculateEloChange.
  destruct (decide (result = "white_wins" \/ result = "player1_wins"
                    \/ result = "win")) as [Hw | Hw];
    [intros [= <-]; apply class_eloChange_size |].
  destruct (decide (result = "black_wins" \/ result = "player2_wins"
                    \/ result = "loss")) as [Hl | Hl];
    [intros [= <-]; apply class_eloChange_size |].
  destruct (decide (result = "draw")) as [Hd | Hd];
    [intros [= <-]; apply class_eloChange_size | discriminate].
Qed.

End RatingEngine.

(** ** Performance rating and required rating *)

Section Performance.
Import Js EloCalculator Reference Examples.
Local Open Scope R_scope.

Lemma fold_left_score (results : list GameRecord) (acc : R) :
  fold_left (fun sum game =>
               match result game with
               | win => sum + 1
               | draw_game => sum + / 2
               | loss => sum + 0
               end) results acc
  = acc + sumR (map (fun g => points (result g)) results).
Proof.
  revert acc. induction results as [| g results IH]; intros acc; simpl.
  - lra.
  - rewrite IH. destruct (result g); simpl; lra.
Qed.

Lemma fold_left_ratings (results : list GameRecord) (acc : R) :
  fold_left (fun sum game => sum + opponentRating game) results acc
  = acc + sumR (map opponentRating results).
Proof.
  revert acc. induction results as [| g results IH]; intros acc; simpl.
  - lra.
  - rewrite IH. lra.
Qed.

Lemma performance_rating_nonempty (rounding : R)
    (results : list GameRecord) :
  results <> [] ->
  calculatePerformanceRating rounding results
  = round (averageOpponent results
           + performanceOffset (fractionalScore results)
           + drift rounding (fractionalScore results)).
Proof.
  intros Hne. unfold calculatePerformanceRating.
  destruct results as [| g results]; [contradiction |].
  change (length (g :: results) =? 0)%nat with false. cbv iota.
  rewrite fold_left_score, fold_left_ratings, !Rplus_0_l.
  fold (fractionalScore (g :: results)) (averageOpponent (g :: results)).
  unfold drift, performanceOffset, log10.
  destruct (Req_dec_T (fractionalScore (g :: results)) 1);
    [f_equal; ring |].
  destruct (Req_dec_T (fractionalScore (g :: results)) 0);
    f_equal; ring.
Qed.



(** One win and one loss against 1500 and 1700: performance 1600,
    whatever the rounding of the logarithm. *)
Lemma performance_even_score (rounding : R) :
  calculatePerformanceRating rounding
    [ {| opponentRating := 1500; result := win |};
      {| opponentRating := 1700; result := loss |} ] = 1600%Z.
Proof.
  rewrite performance_rating_nonempty by discriminate.
  unfold averageOpponent, fractionalScore, drift, performanceOffset; simpl.
  replace ((1 + (0 + 0)) / (1 + 1)) with (/ 2) by lra.
  destruct (Req_dec_T (/ 2) 1); [lra |].
  destruct (Req_dec_T (/ 2) 0); [lra |].
  replace (/ 2 / (1 - / 2)) with 1 by lra.
  rewrite ln_1. apply round_spec. lra.
Qed.







Lemma pow10_lt_inv (x y : R) : pow10 x < pow10 y -> x < y.
Proof.
  intros H. destruct (Rlt_le_dec x y) as [Hlt | Hle]; [exact Hlt |].
  apply pow10_le in Hle. lra.
Qed.

Lemma odds_pos (p : R) : 0 < p < 1 -> 0 < p / (1 - p).
Proof. intros [H0 H1]. apply Rdiv_lt_0_compat; lra. Qed.

(** Before rounding, the required rating inverts the expected score
    exactly. *)
Lemma expectedScore_of_exact_rating (opponent p e : R) :
  0 < p < 1 ->
  calculateExpectedScore (opponent + 400 * log10 (p / (1 - p)) + e) opponent
  = p / (p + (1 - p) * pow10 (- e / 400)).
Proof.
  intros Hp. unfold calculateExpectedScore.
  replace ((opponent - (opponent + 400 * log10 (p / (1 - p)) + e)) / 400)
    with (- log10 (p / (1 - p)) + - e / 400) by field.
  rewrite pow10_plus, pow10_opp, pow10_log10 by (apply odds_pos, Hp).
  pose proof (pow10_pos (- e / 400)) as Hc.
  field. repeat split; try lra. nra.
Qed.

Lemma pow10_800th_upper : pow10 (/ 800) < 1003 / 1000.
Proof.
  apply (pow10_lt_ratio _ 1 800 1003 1000).
  1-4: lia.
  - lra.
  - vm_compute. reflexivity.
Qed.

Lemma rounding_factor_bounds (e : R) :
  - / 2 <= e <= / 2 ->
  997 / 1000 < pow10 (- e / 400) < 1003 / 1000.
Proof.
  intros He.
  pose proof pow10_800th_upper as Hup.
  pose proof (pow10_pos (/ 800)) as Hpos.
  assert (Hlow : 997 / 1000 < pow10 (- / 800)).
  { rewrite pow10_opp.
    apply (Rmult_lt_reg_r (pow10 (/ 800))); [exact Hpos |].
    rewrite Rinv_l by lra. lra. }
  assert (H1 : pow10 (- / 800) <= pow10 (- e / 400))
    by (apply pow10_le; lra).
  assert (H2 : pow10 (- e / 400) <= pow10 (/ 800))
    by (apply pow10_le; lra).
  lra.
Qed.

Lemma inverse_error_bound (p c : R) :
  0 < p < 1 -> 997 / 1000 < c < 1003 / 1000 ->
  Rabs (p / (p + (1 - p) * c) - p) < / 1000.
Proof.
  intros Hp Hc.
  assert (HD : 997 / 1000 <= p + (1 - p) * c) by nra.
  assert (Hq : p * (1 - p) <= / 4)
    by (pose proof (pow2_ge_0 (p - / 2)); nra).
  assert (Hq0 : 0 < p * (1 - p)) by nra.
  replace (p / (p + (1 - p) * c) - p)
    with (p * (1 - p) * (1 - c) / (p + (1 - p) * c)) by (field; lra).
  apply Rabs_def1.
  - apply (Rmult_lt_reg_r (p + (1 - p) * c)); [lra |].
    unfold Rdiv. rewrite Rmult_assoc, Rinv_l, Rmult_1_r by lra. nra.
  - apply (Rmult_lt_reg_r (p + (1 - p) * c)); [lra |].
    unfold Rdiv. rewrite Rmult_assoc, Rinv_l, Rmult_1_r by lra. nra.
Qed.

Lemma requiredRating_returns (opponent p : R) :
  0 < p < 1 ->
  calculateRequiredRating opponent (Finite p)
  = Return (Integer (round (opponent + 400 * log10 (p / (1 - p))))).
Proof.
  intros Hp. unfold calculateRequiredRating, lte, gte.
  destruct (Rle_dec p 0); [lra |].
  destruct (Rge_dec p 1); [lra | reflexivity].
Qed.

(** Scenario 3 evaluates to 1791. *)
Lemma scenario3_value :
  calculateRequiredRating 1600 (Finite 0.75) = Return (Integer 1791).
Proof.
  rewrite requiredRating_returns by lra. do 2 f_equal.
  replace (0.75 / (1 - 0.75)) with 3 by lra.
  assert (Hlo : 381 / 800 < log10 3).
  { apply pow10_lt_inv. rewrite pow10_log10 by lra.
    assert (H : pow10 (381 / 800) < IZR 3 / IZR 1); [| lra].
    apply (pow10_lt_ratio _ 381 800 3 1).
    1-4: lia.
    - lra.
    - vm_compute. reflexivity. }
  assert (Hhi : log10 3 < 383 / 800).
  { apply pow10_lt_inv. rewrite pow10_log10 by lra.
    assert (H : IZR 3 / IZR 1 < pow10 (383 / 800)); [| lra].
    apply (pow10_gt_ratio _ 383 800 3 1).
    1-4: lia.
    - lra.
    - vm_compute. reflexivity. }
  apply round_spec. lra.
Qed.

(** C6.  [calculateRequiredRating] inverts [calculateExpectedScore] up
    to the rounding of the rating to an integer: for every opponent
    rating and every [p] strictly between 0 and 1 it returns a rating
    whose expected score against the opponent is within 0.001 of [p];
    and [calculateRequiredRating 1600 0.75] is
    [1600 + round (400 * log10 (0.75 / 0.25))]. *)
Theorem C6_requiredRating_inverts_expectedScore :
  (forall opponent p : R,
     0 < p < 1 ->
     exists rating : Z,
       calculateRequiredRating opponent (Finite p)
       = Return (Integer rating) /\
       Rabs (calculateExpectedScore (IZR rating) opponent - p) < / 1000) /\
  calculateRequiredRating 1600 (Finite 0.75)
  = Return (Integer (1600 + round (400 * log10 (0.75 / 0.25)))).
Proof.
  split.
  - intros opponent p Hp.
    exists (round (opponent + 400 * log10 (p / (1 - p)))).
    split; [apply requiredRating_returns, Hp |].
    set (exact := opponent + 400 * log10 (p / (1 - p))).
    pose proof (round_bounds exact) as Hr.
    replace (IZR (round exact))
      with (exact + (IZR (round exact) - exact)) by ring.
    unfold exact at 1.
    rewrite expectedScore_of_exact_rating by exact Hp.
    apply inverse_error_bound; [exact Hp |].
    apply rounding_factor_bounds. lra.
  - rewrite requiredRating_returns by lra. do 2 f_equal.
    replace (1 - 0.75) with 0.25 by lra.
    apply (round_plus_IZR 1600).
Qed.

Lemma C6_requiredRating_inverts_expectedScore_witness :
  exists rating : Z,
    calculateRequiredRating 1600 (Finite 0.75) = Return (Integer rating) /\
    Rabs (calculateExpectedScore (IZR rating) 1600 - 0.75) < / 1000.
Proof.
  destruct C6_requiredRating_inverts_expectedScore as [H _].
  apply (H 1600 0.75). lra.
Defined.

End Performance.

(** ** The bracket generators *)

Section Brackets.
Import TournamentService Schema Storage Js Reference Examples.
Local Open Scope storage_scope.

Lemma pairingLoop_done tid (shuffled : list Participant) i matches :
  ~ i < length shuffled ->
  pairingLoop tid shuffled i matches = ret matches.
Proof.
  intros H. rewrite pairingLoop_equation_1.
  destruct (lt_dec i (length shuffled)); [contradiction | reflexivity].
Qed.

Lemma pairingLoop_bye tid (shuffled : list Participant) i matches :
  i < length shuffled -> ~ i + 1 < length shuffled ->
  pairingLoop tid shuffled i matches
  = pairingLoop tid shuffled (i + 2) matches.
Proof.
  intros H1 H2. rewrite pairingLoop_equation_1.
  destruct (lt_dec i (length shuffled)); [| contradiction]. simpl.
  destruct (lt_dec (i + 1) (length shuffled)); [contradiction | reflexivity].
Qed.

Lemma pairingLoop_pair tid (shuffled : list Participant) i matches :
  i + 1 < length shuffled ->
  pairingLoop tid shuffled i matches
  = (let* white := userIdAt shuffled i in
     let* black := userIdAt shuffled (i + 1)%nat in
     let* game := createGame white black game_active tid
                    true initialBoard [] in
     pairingLoop tid shuffled (i + 2)%nat
       (matches ++
        [ {| id := "match_" +:+ pretty (i / 2 + 1)%nat;
             player1Id := white;
             player2Id := black;
             gameId := Some (game_id game);
             matchResult := None;
             isComplete := false |} ])).
Proof.
  intros H1. rewrite pairingLoop_equation_1.
  destruct (lt_dec i (length shuffled)); [| lia]. simpl.
  destruct (lt_dec (i + 1) (length shuffled)); [reflexivity | contradiction].
Qed.

Lemma userIdAt_lookup (l : list Participant) (i : nat) (p : Participant)
    (db : Db) :
  l !! i = Some p -> userIdAt l i db = (Return (userId p), db).
Proof. intros H. unfold userIdAt. rewrite H. reflexivity. Qed.

Lemma all_registered_lookup (db : Db) (l : list Participant) (i : nat)
    (p : Participant) :
  all_registered db l -> l !! i = Some p ->
  exists u, users db !! userId p = Some u.
Proof.
  intros Hreg Hp. exact (Forall_lookup_1 _ _ _ _ Hreg Hp).
Qed.

Lemma all_registered_users (db db' : Db) (l : list Participant) :
  users db' = users db -> all_registered db l -> all_registered db' l.
Proof. unfold all_registered. intros ->. auto. Qed.

(** From index [i] on, the loop adds one match per consecutive pair of
    the remaining participants and leaves at most one of them out. *)
Lemma pairingLoop_spec tid (shuffled : list Participant) (k : nat) :
  forall i matches db,
    length shuffled - i <= k ->
    all_registered db shuffled ->
    exists added db' rest,
      pairingLoop tid shuffled i matches db
      = (Return (matches ++ added), db') /\
      length added = (length shuffled - i) / 2 /\
      map userId (drop i shuffled) = flat_map seats added ++ rest /\
      length rest <= 1.
Proof.
  induction k as [| k IH]; intros i matches db Hk Hreg.
  - exists [], db, []. rewrite pairingLoop_done by lia.
    rewrite app_nil_r, drop_ge by lia.
    replace (length shuffled - i) with 0 by lia.
    repeat split. simpl. lia.
  - destruct (lt_dec (i + 1) (length shuffled)) as [Hpair | Hnopair].
    + destruct (lookup_lt_is_Some_2 shuffled i) as [a Ha]; [lia |].
      destruct (lookup_lt_is_Some_2 shuffled (i + 1)) as [b Hb]; [lia |].
      destruct (all_registered_lookup _ _ _ _ Hreg Ha) as [ua Hua].
      destruct (all_registered_lookup _ _ _ _ Hreg Hb) as [ub Hub].
      rewrite pairingLoop_pair by exact Hpair.
      unfold bind at 1. rewrite (userIdAt_lookup _ _ _ _ Ha).
      unfold bind at 1. rewrite (userIdAt_lookup _ _ _ _ Hb).
      unfold bind at 1. unfold createGame at 1. rewrite Hua, Hub.
      cbv beta iota zeta.
      match goal with
      | |- context [pairingLoop tid shuffled (i + 2) ?ms ?d] =>
          destruct (IH (i + 2) ms d ltac:(lia) Hreg)
            as (added & db' & rest & Hrun & Hlen & Hseats & Hrest)
      end.
      rewrite Hrun, <- app_assoc. cbn [app].
      eexists (_ :: added), db', rest. split; [reflexivity |].
      split; [| split; [| exact Hrest]].
      * assert (Hdiv : (length shuffled - i) / 2
                       = S ((length shuffled - (i + 2)) / 2)).
        { replace (length shuffled - i)
            with (length shuffled - (i + 2) + 1 * 2) by lia.
          rewrite Nat.div_add by lia. lia. }
        rewrite Hdiv, <- Hlen. reflexivity.
      * rewrite (drop_S _ _ _ Ha).
        replace (S i) with (i + 1) by lia.
        rewrite (drop_S _ _ _ Hb).
        replace (S (i + 1)) with (i + 2) by lia.
        simpl. rewrite Hseats. reflexivity.
    + destruct (lt_dec i (length shuffled)) as [Hin | Hout].
      * destruct (lookup_lt_is_Some_2 shuffled i) as [a Ha]; [lia |].
        rewrite pairingLoop_bye, pairingLoop_done by lia.
        exists [], db, [userId a].
        rewrite app_nil_r, (drop_S _ _ _ Ha), drop_ge by lia.
        replace (length shuffled - i) with 1 by lia.
        repeat split. simpl. lia.
      * exists [], db, []. rewrite pairingLoop_done by lia.
        rewrite app_nil_r, drop_ge by lia.
        replace (length shuffled - i) with 0 by lia.
        repeat split. simpl. lia.
Qed.

Lemma roundRobin_inner tid (participants : list Participant) (i : nat)
    (white : Participant) :
  participants !! i = Some white ->
  forall count j matches db,
    j + count <= length participants ->
    all_registered db participants ->
    exists added db',
      for_count count j (roundRobinBody tid participants i) matches db
      = (Return (matches ++ added), db') /\
      users db' = users db /\
      map pairing added
      = map (pair (userId white))
          (map userId (take count (drop j participants))).
Proof.
  intros Hi. induction count as [| count IH]; intros j matches db Hj Hreg.
  - exists [], db. rewrite app_nil_r. repeat split; reflexivity.
  - destruct (lookup_lt_is_Some_2 participants j) as [black Hb]; [lia |].
    destruct (all_registered_lookup _ _ _ _ Hreg Hi) as [uw Huw].
    destruct (all_registered_lookup _ _ _ _ Hreg Hb) as [ub Hub].
    cbn [for_count]. unfold bind at 1. unfold roundRobinBody at 1.
    unfold bind at 1. rewrite (userIdAt_lookup _ _ _ _ Hi).
    unfold bind at 1. rewrite (userIdAt_lookup _ _ _ _ Hb).
    unfold bind at 1. unfold createGame at 1, ret at 1.
    rewrite Huw, Hub. cbv beta iota zeta.
    match goal with
    | |- context [for_count count (S j) _ ?ms ?d] =>
        destruct (IH (S j) ms d ltac:(lia) Hreg)
          as (added & db' & Hrun & Hu & Hpairs)
    end.
    rewrite Hrun, <- app_assoc. cbn [app].
    eexists (_ :: added), db'. split; [reflexivity |].
    split; [exact Hu |].
    rewrite (drop_S _ _ _ Hb). cbn [take map]. rewrite Hpairs.
    reflexivity.
Qed.

Lemma roundRobin_outer tid (participants : list Participant) :
  forall count i matches db,
    i + count = length participants ->
    all_registered db participants ->
    exists added db',
      for_count count i
        (fun i matches =>
           for_range (i + 1) (length participants)
             (roundRobinBody tid participants i) matches) matches db
      = (Return (matches ++ added), db') /\
      map pairing added = all_pairs (map userId (drop i participants)).
Proof.
  induction count as [| count IH]; intros i matches db Hi Hreg.
  - exists [], db. rewrite app_nil_r, drop_ge by lia.
    split; reflexivity.
  - destruct (lookup_lt_is_Some_2 participants i) as [white Hw]; [lia |].
    cbn [for_count]. unfold bind at 1. unfold for_range at 1.
    destruct (roundRobin_inner tid participants i white Hw
                (length participants - (i + 1)) (i + 1) matches db
                ltac:(lia) Hreg)
      as (row & db1 & Hrow & Hu1 & Hrowpairs).
    rewrite Hrow.
    destruct (IH (S i) (matches ++ row) db1 ltac:(lia)
                (all_registered_users _ _ _ Hu1 Hreg))
      as (added & db' & Hrun & Hpairs).
    rewrite Hrun, <- app_assoc.
    exists (row ++ added), db'. split; [reflexivity |].
    rewrite map_app, Hrowpairs, Hpairs, (drop_S _ _ _ Hw).
    rewrite take_ge by (rewrite length_drop; lia).
    replace (i + 1) with (S i) by lia. reflexivity.
Qed.

Lemma all_registered_shuffled
    (shuffle : list Participant -> list Participant) (db : Db)
    (participants : list Participant) :
  (forall l, Permutation l (shuffle l)) ->
  all_registered db participants ->
  all_registered db (shuffle participants).
Proof.
  intros Hshuffle Hreg. unfold all_registered.
  eapply Permutation_Forall; [apply Hshuffle | exact Hreg].
Qed.

Lemma all_pairs_length {A} (l : list A) :
  2 * length (all_pairs l) = length l * (length l - 1).
Proof.
  induction l as [| a l IH]; [reflexivity |].
  cbn [all_pairs length]. rewrite length_app, length_map.
  replace (S (length l) - 1) with (length l) by lia.
  destruct l as [| b l]; [reflexivity |].
  cbn [length] in *. nia.
Qed.

Lemma all_pairs_count {A} (l : list A) :
  length (all_pairs l) = length l * (length l - 1) / 2.
Proof.
  rewrite <- all_pairs_length, Nat.mul_comm. symmetry.
  apply Nat.div_mul. lia.
Qed.

Lemma all_pairs_members {A} (l : list A) (x y : A) :
  In (x, y) (all_pairs l) -> In x l /\ In y l.
Proof.
  induction l as [| a l IH]; [intros [] |].
  cbn [all_pairs]. rewrite in_app_iff, in_map_iff.
  intros [(z & Hz & Hin) | Hin].
  - injection Hz as <- <-. split; [left; reflexivity | right; exact Hin].
  - destruct (IH Hin). split; right; assumption.
Qed.

Lemma filter_none {A} (f : A -> bool) (l : list A) :
  (forall x, In x l -> f x = false) -> List.filter f l = [].
Proof.
  induction l as [| a l IH]; intros H; [reflexivity |].
  cbn [List.filter]. rewrite (H a) by (left; reflexivity).
  apply IH. intros x Hx. apply H. right. exact Hx.
Qed.

Lemma pairs_up_true (a b : string) (m : string * string) :
  pairs_up a b m = true <-> m = (a, b) \/ m = (b, a).
Proof. unfold pairs_up. apply bool_decide_eq_true. Qed.

Lemma pairs_up_false (a b : string) (m : string * string) :
  pairs_up a b m = false <-> ~ (m = (a, b) \/ m = (b, a)).
Proof. unfold pairs_up. apply bool_decide_eq_false. Qed.

(** In a row [(x, _)] over duplicate-free [l], exactly one entry pairs
    [x] with a given other member of [l]. *)
Lemma row_pairs_once (x other : string) (l : list string) :
  List.NoDup l -> In other l -> x <> other ->
  length (List.filter (pairs_up x other) (map (pair x) l)) = 1.
Proof.
  intros Hnd Hin Hne. induction l as [| y l IH]; [destruct Hin |].
  apply List.NoDup_cons_iff in Hnd as [Hy Hnd].
  cbn [map List.filter].
  destruct (decide (y = other)) as [-> | Hyo].
  - replace (pairs_up x other (x, other)) with true
      by (symmetry; apply pairs_up_true; left; reflexivity).
    rewrite filter_none; [reflexivity |].
    intros m Hm. apply in_map_iff in Hm as (z & <- & Hz).
    apply pairs_up_false. intros [H | H]; injection H; intros; subst.
    + contradiction.
    + contradiction.
  - replace (pairs_up x other (x, y)) with false.
    + apply IH; [exact Hnd |]. destruct Hin; [contradiction | assumption].
    + symmetry. apply pairs_up_false.
      intros [H | H]; injection H; intros; subst; contradiction.
Qed.

Lemma row_pairs_none (x a b : string) (l : list string) :
  x <> a -> x <> b ->
  List.filter (pairs_up a b) (map (pair x) l) = [].
Proof.
  intros Ha Hb. apply filter_none.
  intros m Hm. apply in_map_iff in Hm as (z & <- & Hz).
  apply pairs_up_false.
  intros [H | H]; injection H; intros; subst; contradiction.
Qed.

Lemma pairs_up_swap (a b : string) (m : string * string) :
  pairs_up a b m = pairs_up b a m.
Proof.
  unfold pairs_up. apply bool_decide_ext. tauto.
Qed.

(** Over a duplicate-free list, [all_pairs] pairs any two distinct
    members exactly once. *)
Lemma all_pairs_once (l : list string) (a b : string) :
  List.NoDup l -> In a l -> In b l -> a <> b ->
  length (List.filter (pairs_up a b) (all_pairs l)) = 1.
Proof.
  intros Hnd. induction l as [| x l IH]; intros Ha Hb Hne; [destruct Ha |].
  apply List.NoDup_cons_iff in Hnd as [Hx Hnd].
  cbn [all_pairs]. rewrite List.filter_app, length_app.
  destruct (decide (x = a)) as [-> | Hxa];
    [| destruct (decide (x = b)) as [-> | Hxb]].
  - destruct Hb as [Hb | Hb]; [contradiction |].
    rewrite row_pairs_once by assumption.
    rewrite filter_none; [reflexivity |].
    intros [u v] Hm. apply all_pairs_members in Hm as [Hu Hv].
    apply pairs_up_false. intros [H | H]; injection H; intros; subst;
      contradiction.
  - destruct Ha as [Ha | Ha]; [congruence |].
    rewrite (List.filter_ext _ _ (pairs_up_swap a b)).
    rewrite row_pairs_once by (try assumption; congruence).
    rewrite filter_none; [reflexivity |].
    intros [u v] Hm. apply all_pairs_members in Hm as [Hu Hv].
    rewrite <- pairs_up_swap.
    apply pairs_up_false. intros [H | H]; injection H; intros; subst;
      contradiction.
  - destruct Ha as [Ha | Ha]; [contradiction |].
    destruct Hb as [Hb | Hb]; [contradiction |].
    rewrite row_pairs_none by assumption.
    apply IH; assumption.
Qed.

(** C5.  For every list of [n] participants that are stored users the
    single-elimination generator returns exactly [n / 2] matches, which
    pair consecutive elements of the (shuffled) list two at a time and
    leave at most one participant out (the bye); the round-robin
    generator returns exactly [n * (n - 1) / 2] matches, pairing every
    participant with each later one of the list, so that every
    unordered pair of positions is paired exactly once; when no
    identifier is listed twice, any two distinct participants meet in
    exactly one match.  Neither generator throws. *)
Theorem C5_bracket_sizes
    (shuffle : list Participant -> list Participant)
    (tid : string) (participants : list Participant) (db : Db) :
  (forall l, Permutation l (shuffle l)) ->
  all_registered db participants ->
  let n := length participants in
  let ids := map userId participants in
  (exists matches db' byes,
     generateSingleEliminationRound shuffle tid participants db
     = (Return matches, db') /\
     length matches = n / 2 /\
     map userId (shuffle participants) = flat_map seats matches ++ byes /\
     length byes <= 1) /\
  (exists matches db',
     generateRoundRobinRound tid participants db = (Return matches, db') /\
     length matches = n * (n - 1) / 2 /\
     map pairing matches = all_pairs ids /\
     (List.NoDup ids ->
      forall a b, In a ids -> In b ids -> a <> b ->
        length (List.filter (pairs_up a b) (map pairing matches)) = 1)).
Proof.
  intros Hshuffle Hreg n ids. split.
  - unfold generateSingleEliminationRound.
    destruct (pairingLoop_spec tid (shuffle participants)
                (length (shuffle participants)) 0 [] db ltac:(lia)
                (all_registered_shuffled _ _ _ Hshuffle Hreg))
      as (added & db' & rest & Hrun & Hlen & Hseats & Hrest).
    exists added, db', rest.
    rewrite Nat.sub_0_r, <- (Permutation_length (Hshuffle participants))
      in Hlen.
    rewrite drop_0 in Hseats. auto.
  - unfold generateRoundRobinRound, for_range.
    destruct (roundRobin_outer tid participants
                (length participants - 0) 0 [] db ltac:(lia) Hreg)
      as (added & db' & Hrun & Hpairs).
    rewrite drop_0 in Hpairs. cbn [app] in Hrun.
    exists added, db'. split; [exact Hrun |].
    assert (Hcount : length added = n * (n - 1) / 2).
    { rewrite <- (length_map pairing), Hpairs, all_pairs_count.
      unfold ids. rewrite length_map. reflexivity. }
    split; [exact Hcount |]. split; [exact Hpairs |].
    intros Hnd a b Ha Hb Hne. rewrite Hpairs.
    apply all_pairs_once; assumption.
Qed.

Lemma trio_registered : all_registered trioDb trio.
Proof.
  unfold all_registered, trio.
  repeat constructor; cbn [userId]; vm_compute; eauto.
Qed.

Lemma C5_bracket_sizes_witness :
  (exists matches db' byes,
     generateSingleEliminationRound (fun l => l) "t" trio trioDb
     = (Return matches, db') /\
     length matches = 3 / 2 /\
     map userId trio = flat_map seats matches ++ byes /\
     length byes <= 1) /\
  (exists matches db',
     generateRoundRobinRound "t" trio trioDb = (Return matches, db') /\
     length matches = 3 * (3 - 1) / 2 /\
     map pairing matches = all_pairs (map userId trio) /\
     (List.NoDup (map userId trio) ->
      forall a b, In a (map userId trio) -> In b (map userId trio) ->
        a <> b ->
        length (List.filter (pairs_up a b) (map pairing matches)) = 1)).
Proof.
  apply (C5_bracket_sizes (fun l => l) "t" trio trioDb).
  - intros l. reflexivity.
  - exact trio_registered.
Defined.

(** The two brackets of three participants, evaluated. *)
Lemma trio_brackets :
  map pairing (trio_single_elimination) = [("a", "b")] /\
  map pairing (trio_round_robin) = [("a", "b"); ("a", "c"); ("b", "c")].
Proof. split; vm_compute; reflexivity. Qed.

(** In a database without users the first insert is refused: both
    generators throw and store nothing. *)
Lemma trio_not_registered :
  (exists message,
     generateSingleEliminationRound (fun l => l) "t" trio emptyDb
     = (Throw message, emptyDb)) /\
  (exists message,
     generateRoundRobinRound "t" trio emptyDb = (Throw message, emptyDb)).
Proof. split; eexists; vm_compute; reflexivity. Qed.

End Brackets.

(** ** Writes the database accepts *)

Section Writes.
Import Schema Storage Js Reference.

Lemma all_cons_returns (write : M unit) (rest : list (M unit))
    (db db1 : Db) :
  write db = (Return tt, db1) -> all (write :: rest) db = all rest db1.
Proof.
  intros H. cbn [all]. rewrite H. destruct (all rest db1). reflexivity.
Qed.

Lemma all_cons_state (write : M unit) (rest : list (M unit)) (db : Db) :
  snd (all (write :: rest) db) = snd (all rest (snd (write db))).
Proof.
  cbn [all]. destruct (write db) as [c db1]. cbn [snd].
  destruct (all rest db1). reflexivity.
Qed.

Lemma updateUser_fits (id : string) (updates : UserUpdates) (db : Db) :
  user_updates_fit updates = true ->
  updateUser id updates db
  = (Return tt,
     {| users := match users db !! id with
                 | Some u => <[id := user_after updates u]> (users db)
                 | None => users db
                 end;
        games := games db;
        tournaments := tournaments db;
        serial := serial db |}).
Proof. intros H. unfold updateUser. rewrite H. reflexivity. Qed.

Lemma updateGame_fits (id : string) (updates : GameUpdates) (db : Db) :
  game_updates_fit updates = true ->
  updateGame id updates db
  = (Return tt,
     {| users := users db;
        games := match games db !! id with
                 | Some g => <[id := game_after updates g]> (games db)
                 | None => games db
                 end;
        tournaments := tournaments db;
        serial := serial db |}).
Proof. intros H. unfold updateGame. rewrite H. reflexivity. Qed.

End Writes.

(** The values a write sets fit their columns, by the bounds at hand. *)
Ltac fits_columns :=
  unfold Storage.user_updates_fit, Storage.game_updates_fit,
    Storage.fits_int4, Schema.is_int4;
  cbn [Schema.set_eloRating Schema.set_gamesPlayed Schema.set_gamesWon
       Schema.set_gamesLost Schema.set_gamesDrawn Schema.set_result
       Schema.set_whiteEloChange Schema.set_blackEloChange];
  repeat match goal with
         | |- context [decide ?P] => destruct (decide P)
         end;
  repeat (apply andb_true_intro; split);
  first [ reflexivity | apply Z.leb_le; lia ].

(** ** Recording the outcome of a tournament game *)

Section GameCompletion.
Import TournamentService Schema Storage Js Reference Examples.
Local Open Scope storage_scope.

Variable shuffle : list Participant -> list Participant.

Lemma truthy_string_some (s : string) :
  s <> EmptyString -> truthy_string (Some s) = Some s.
Proof.
  intros H. unfold truthy_string.
  destruct (decide (s = EmptyString)); [contradiction | reflexivity].
Qed.

(** [checkRoundCompletion] always returns, leaves users and games as
    they are and deletes no tournament. *)
Lemma checkRoundCompletion_frame (tid : string) (db : Db) :
  exists db',
    checkRoundCompletion shuffle tid db = (Return tt, db') /\
    users db' = users db /\ games db' = games db /\
    (is_Some (tournaments db !! tid) -> is_Some (tournaments db' !! tid)).
Proof.
  unfold checkRoundCompletion, try_catch, bind, getTournament.
  destruct (tournaments db !! tid) as [t |] eqn:Ht.
  2:{ exists db. rewrite Ht. auto. }
  destruct (tournament_status t); try (exists db; rewrite Ht; auto; fail).
  unfold getTournamentActiveGames, bind, getActiveGames, ret.
  match goal with
  | |- context [(length ?l =? 0)%nat] => destruct (length l =? 0)%nat
  end.
  2:{ exists db. rewrite Ht. auto. }
  unfold getTournamentParticipants, getRemainingPlayers, ret.
  cbn [length Nat.leb head option_map].
  unfold completeTournament, try_catch, updateTournament.
  rewrite Ht. cbn [winner_fits set_winnerId].
  eexists. split; [reflexivity |].
  cbn [users games tournaments]. repeat split.
  intros _. rewrite lookup_insert_eq. eauto.
Qed.

(** One call: whatever the status of the game, the delta is applied
    to both players and the game remains a tournament game. *)
Lemma handleGameCompletion_applies (bound : Z) (db : Db)
    (gameId result : string) (game : Game) (tid : string)
    (white black : User) (delta : Z) :
  tournament_game db gameId game tid white black ->
  within bound white -> within bound black -> (bound <= 2147483600)%Z ->
  Exports.calculateEloChange (IZR (eloRating white)) (IZR (eloRating black)) result
  = Return delta ->
  exists db' game' white' black',
    handleGameCompletion shuffle gameId result db = (Return tt, db') /\
    tournament_game db' gameId game' tid white' black' /\
    within (bound + 40) white' /\ within (bound + 40) black' /\
    status game' = status game /\
    user_id white' = user_id white /\ user_id black' = user_id black /\
    eloRating white' = (eloRating white + delta)%Z /\
    eloRating black' = (eloRating black - delta)%Z /\
    gamesPlayed white' = (gamesPlayed white + 1)%Z /\
    gamesPlayed black' = (gamesPlayed black + 1)%Z.
Proof.
  intros (Hgame & Htid & Htid0 & Htour & Hw & Hw0 & Hb & Hb0 & Hwu & Hbu & Hne)
         Hwroom Hbroom Hbound Hdelta.
  pose proof (exported_return_size _ _ _ _ Hdelta) as Hsize.
  destruct Htour as [t Ht].
  unfold handleGameCompletion, try_catch.
  unfold bind at 1. unfold getGame at 1. rewrite Hgame. cbv beta iota.
  rewrite Htid, (truthy_string_some _ Htid0).
  unfold bind at 1. unfold getTournament at 1. rewrite Ht. cbv beta iota.
  rewrite Hw, Hb, (truthy_string_some _ Hw0), (truthy_string_some _ Hb0).
  unfold bind at 1. unfold bind at 1. unfold getUser at 1.
  rewrite Hwu. cbv beta iota.
  unfold bind at 1. unfold getUser at 1. rewrite Hbu. cbv beta iota.
  unfold bind at 1. unfold lift at 1. rewrite Hdelta. cbv beta iota zeta.
  match goal with
  | |- context [all [updateUser _ ?wup; updateUser _ ?bup;
                     updateGame _ ?gup]] =>
      assert (Hwfit : user_updates_fit wup = true);
        [| assert (Hbfit : user_updates_fit bup = true);
           [| assert (Hgfit : game_updates_fit gup = true) ] ]
  end.
  { destruct Hwroom as (? & ? & ? & ? & ?). fits_columns. }
  { destruct Hbroom as (? & ? & ? & ? & ?). fits_columns. }
  { fits_columns. }
  rewrite (all_cons_returns _ _ _ _ (updateUser_fits _ _ _ Hwfit)).
  rewrite (all_cons_returns _ _ _ _ (updateUser_fits _ _ _ Hbfit)).
  rewrite (all_cons_returns _ _ _ _ (updateGame_fits _ _ _ Hgfit)).
  cbn [all users games tournaments serial].
  rewrite Hwu, lookup_insert_ne, Hbu, Hgame by exact Hne.
  match goal with
  | |- context [checkRoundCompletion shuffle tid ?d] =>
      destruct (checkRoundCompletion_frame tid d)
        as (db' & Hrun & Husers & Hgames & Htours)
  end.
  rewrite Hrun. cbn [users games tournaments] in Husers, Hgames, Htours.
  match type of Husers with
  | _ = <[_ := ?black']> (<[_ := ?white']> _) =>
      match type of Hgames with
      | _ = <[_ := ?game']> _ => exists db', game', white', black'
      end
  end.
  split; [reflexivity |].
  split; [| destruct Hwroom as (? & ? & ? & ? & ?);
            destruct Hbroom as (? & ? & ? & ? & ?);
            unfold within; cbn;
            repeat match goal with
                   | |- context [decide ?P] => destruct (decide P)
                   end;
            repeat split; lia].
  unfold tournament_game. rewrite Husers, Hgames. cbn.
  rewrite !lookup_insert_eq.
  rewrite lookup_insert_ne by (intros E; apply Hne; symmetry; exact E).
  rewrite lookup_insert_eq.
  repeat split; try assumption.
  apply Htours. rewrite Ht. eauto.
Qed.

(** Two calls for the same game: the second applies a further delta,
    computed from the ratings the first one stored. *)
Lemma handleGameCompletion_twice (db : Db) (gameId result : string)
    (game : Game) (tid : string) (white black : User) (delta1 delta2 : Z) :
  tournament_game db gameId game tid white black ->
  has_room white -> has_room black ->
  Exports.calculateEloChange (IZR (eloRating white)) (IZR (eloRating black)) result
  = Return delta1 ->
  Exports.calculateEloChange (IZR (eloRating white + delta1))
                     (IZR (eloRating black - delta1)) result
  = Return delta2 ->
  let db1 := snd (handleGameCompletion shuffle gameId result db) in
  let db2 := snd (handleGameCompletion shuffle gameId result db1) in
  status <$> games db1 !! gameId = Some (status game) /\
  eloRating <$> users db1 !! user_id white
    = Some (eloRating white + delta1)%Z /\
  eloRating <$> users db1 !! user_id black
    = Some (eloRating black - delta1)%Z /\
  eloRating <$> users db2 !! user_id white
    = Some (eloRating white + delta1 + delta2)%Z /\
  eloRating <$> users db2 !! user_id black
    = Some (eloRating black - delta1 - delta2)%Z /\
  gamesPlayed <$> users db2 !! user_id white
    = Some (gamesPlayed white + 2)%Z /\
  gamesPlayed <$> users db2 !! user_id black
    = Some (gamesPlayed black + 2)%Z.
Proof.
  intros Hgame Hwroom Hbroom Hd1 Hd2 db1 db2.
  destruct (handleGameCompletion_applies 2000000000 db gameId result game
              tid white black delta1 Hgame Hwroom Hbroom ltac:(lia) Hd1)
    as (d1 & game1 & white1 & black1 & Hrun1 & Hgame1 & Hwroom1 & Hbroom1
        & Hst1 & Hw1 & Hb1 & Hwr1 & Hbr1 & Hwg1 & Hbg1).
  assert (Hdb1 : db1 = d1) by (unfold db1; rewrite Hrun1; reflexivity).
  rewrite <- Hwr1, <- Hbr1 in Hd2.
  destruct (handleGameCompletion_applies (2000000000 + 40) d1 gameId result
              game1 tid white1 black1 delta2 Hgame1 Hwroom1 Hbroom1
              ltac:(lia) Hd2)
    as (d2 & game2 & white2 & black2 & Hrun2 & Hgame2 & _ & _ & _ & Hw2 & Hb2
        & Hwr2 & Hbr2 & Hwg2 & Hbg2).
  assert (Hdb2 : db2 = d2)
    by (unfold db2; rewrite Hdb1, Hrun2; reflexivity).
  rewrite Hdb1, Hdb2.
  destruct Hgame1 as (Hg1 & _ & _ & _ & _ & _ & _ & _ & Hu1 & Hv1 & _).
  destruct Hgame2 as (_ & _ & _ & _ & _ & _ & _ & _ & Hu2 & Hv2 & _).
  rewrite Hw2, Hw1 in Hu2. rewrite Hb2, Hb1 in Hv2.
  rewrite Hw1 in Hu1. rewrite Hb1 in Hv1.
  rewrite Hg1, Hu1, Hv1, Hu2, Hv2. cbn [fmap option_fmap option_map].
  rewrite Hst1. repeat split; f_equal; lia.
Qed.

(** C2, amended.  [handleGameCompletion] does not consult the status
    of the game and is not idempotent: for a tournament game between
    two distinct stored players whose ratings and counters leave room
    in their columns, and a valid result string, every call adds the
    Elo change computed from the stored ratings to white's rating,
    subtracts it from black's and counts one more game for both; a
    second call for the same game applies a second change, computed
    from the ratings the first call stored. *)
Theorem C2_each_call_applies_a_delta (db : Db) (gameId result : string)
    (game : Game) (tid : string) (white black : User) (delta1 delta2 : Z) :
  tournament_game db gameId game tid white black ->
  has_room white -> has_room black ->
  Exports.calculateEloChange (IZR (eloRating white)) (IZR (eloRating black)) result
  = Return delta1 ->
  Exports.calculateEloChange (IZR (eloRating white + delta1))
                     (IZR (eloRating black - delta1)) result
  = Return delta2 ->
  let db1 := snd (handleGameCompletion shuffle gameId result db) in
  let db2 := snd (handleGameCompletion shuffle gameId result db1) in
  status <$> games db1 !! gameId = Some (status game) /\
  eloRating <$> users db1 !! user_id white
    = Some (eloRating white + delta1)%Z /\
  eloRating <$> users db1 !! user_id black
    = Some (eloRating black - delta1)%Z /\
  eloRating <$> users db2 !! user_id white
    = Some (eloRating white + delta1 + delta2)%Z /\
  eloRating <$> users db2 !! user_id black
    = Some (eloRating black - delta1 - delta2)%Z /\
  gamesPlayed <$> users db2 !! user_id white
    = Some (gamesPlayed white + 2)%Z /\
  gamesPlayed <$> users db2 !! user_id black
    = Some (gamesPlayed black + 2)%Z.
Proof. apply handleGameCompletion_twice. Qed.

End GameCompletion.

Section Replay.
Import TournamentService Schema Storage Js Reference Examples.
Import EloCalculator.
Local Open Scope R_scope.

Lemma decoded_white_wins (a b : R) :
  Exports.calculateEloChange a b "white_wins"
  = Return (EloCalculator.calculateEloChange a b win None).
Proof. reflexivity. Qed.

Lemma first_delta : Exports.calculateEloChange 1200 1200 "white_wins" = Return 20%Z.
Proof.
  rewrite decoded_white_wins. f_equal.
  unfold EloCalculator.calculateEloChange, actualScoreOf.
  rewrite expectedScore_equal, kFactor_default_established by lra.
  apply round_spec. lra.
Qed.

Lemma pow10_tenth_bounds : 5 / 4 < pow10 (/ 10) < 63 / 50.
Proof.
  split.
  - apply (pow10_gt_ratio _ 1 10 5 4).
    1-4: lia.
    + lra.
    + vm_compute. reflexivity.
  - apply (pow10_lt_ratio _ 1 10 63 50).
    1-4: lia.
    + lra.
    + vm_compute. reflexivity.
Qed.

Lemma second_delta : Exports.calculateEloChange 1220 1180 "white_wins" = Return 18%Z.
Proof.
  rewrite decoded_white_wins. f_equal.
  unfold EloCalculator.calculateEloChange, actualScoreOf.
  rewrite kFactor_default_established by lra.
  unfold calculateExpectedScore.
  replace ((1180 - 1220) / 400) with (- / 10) by lra.
  rewrite pow10_opp.
  destruct pow10_tenth_bounds as [Hlo Hhi].
  set (u := pow10 (/ 10)) in *.
  replace (1 / (1 + / u)) with (u / (u + 1)) by (field; lra).
  assert (Hq : 5 / 9 < u / (u + 1) < 63 / 113).
  { split.
    - apply (Rmult_lt_reg_r (u + 1)); [lra |].
      unfold Rdiv at 2. rewrite Rmult_assoc, Rinv_l by lra. lra.
    - apply (Rmult_lt_reg_r (u + 1)); [lra |].
      unfold Rdiv at 1. rewrite Rmult_assoc, Rinv_l by lra. lra. }
  apply round_spec. lra.
Qed.

Lemma player_has_room (name : string) : has_room (player name).
Proof. unfold has_room, within, player; cbn. lia. Qed.

Lemma finished_game_is_tournament_game :
  tournament_game tournamentDb "g1" finishedGame "t1"
    (player "w") (player "b").
Proof.
  unfold tournament_game.
  repeat split; try reflexivity; try discriminate.
  eexists. reflexivity.
Qed.

(** C2, as stated, fails: the game is already completed, yet a second
    call applies a second rating change (1200, then 1220, then 1238 for
    white; 1200, 1180, 1162 for black). *)
Lemma C2_replay_applies_delta_twice :
  let db1 := snd (handleGameCompletion (fun l => l) "g1" "white_wins"
                    tournamentDb) in
  let db2 := snd (handleGameCompletion (fun l => l) "g1" "white_wins" db1) in
  status <$> games tournamentDb !! "g1" = Some game_completed /\
  status <$> games db1 !! "g1" = Some game_completed /\
  eloRating <$> users db1 !! "w" = Some 1220%Z /\
  eloRating <$> users db1 !! "b" = Some 1180%Z /\
  eloRating <$> users db2 !! "w" = Some 1238%Z /\
  eloRating <$> users db2 !! "b" = Some 1162%Z /\
  db2 <> db1.
Proof.
  intros db1 db2.
  destruct (handleGameCompletion_twice (fun l => l) tournamentDb
              "g1" "white_wins" finishedGame "t1" (player "w") (player "b")
              20 18 finished_game_is_tournament_game
              (player_has_room "w") (player_has_room "b")
              first_delta second_delta)
    as (Hst & Hw1 & Hb1 & Hw2 & Hb2 & _).
  fold db1 in Hst, Hw1, Hb1, Hw2, Hb2. fold db2 in Hw2, Hb2.
  repeat split; try assumption; try reflexivity.
  intros E. rewrite E, Hw1 in Hw2. discriminate Hw2.
Qed.

Lemma C2_each_call_applies_a_delta_witness :
  let db1 := snd (handleGameCompletion (fun l => l) "g1" "white_wins"
                    tournamentDb) in
  let db2 := snd (handleGameCompletion (fun l => l) "g1" "white_wins" db1) in
  eloRating <$> users db2 !! "w" = Some (1200 + 20 + 18)%Z.
Proof.
  intros db1 db2.
  exact (proj1 (proj2 (proj2 (proj2
           (C2_each_call_applies_a_delta (fun l => l) tournamentDb
              "g1" "white_wins" finishedGame "t1" (player "w") (player "b")
              20 18 finished_game_is_tournament_game
              (player_has_room "w") (player_has_room "b")
              first_delta second_delta))))).
Defined.

End Replay.


(** * Further properties *)

(** ** The rating engine *)

Section RatingEngineMore.
Import Js EloCalculator Reference.
Local Open Scope R_scope.

(** X1.  The expected score always lies strictly between 0 and 1, and
    it grows strictly with the player's own rating and falls strictly
    with the opponent's. *)
Theorem expectedScore_range_and_monotone (a a' b : R) :
  0 < calculateExpectedScore a b < 1 /\
  (a < a' ->
   calculateExpectedScore a b < calculateExpectedScore a' b /\
   calculateExpectedScore b a' < calculateExpectedScore b a).
Proof.
  split; [apply expectedScore_pos_lt_1 |].
  intros Hlt. unfold calculateExpectedScore.
  pose proof (pow10_pos ((b - a) / 400)).
  pose proof (pow10_pos ((b - a') / 400)).
  pose proof (pow10_pos ((a - b) / 400)).
  pose proof (pow10_pos ((a' - b) / 400)).
  assert (Hup : pow10 ((b - a') / 400) < pow10 ((b - a) / 400))
    by (apply pow10_lt; lra).
  assert (Hdown : pow10 ((a - b) / 400) < pow10 ((a' - b) / 400))
    by (apply pow10_lt; lra).
  split; unfold Rdiv at 1 3; rewrite !Rmult_1_l;
    apply Rinv_lt_contravar; try lra; apply Rmult_lt_0_compat; lra.
Qed.

Lemma expectedScore_range_and_monotone_witness :
  calculateExpectedScore 1200 1500 < calculateExpectedScore 1300 1500.
Proof.
  destruct (expectedScore_range_and_monotone 1200 1300 1500) as [_ H].
  apply H. lra.
Defined.

(** X2.  Whatever the ratings and the number of games played, the
    single-player [calculateEloChange] is between 0 and 40 for a win,
    between -40 and 0 for a loss and between -20 and 20 for a draw. *)
Theorem eloChange_sign_and_size (playerRating opponentRating : R)
    (gamesPlayed : option R) :
  (0 <= calculateEloChange playerRating opponentRating win gamesPlayed
     <= 40)%Z /\
  (- 40 <= calculateEloChange playerRating opponentRating loss gamesPlayed
     <= 0)%Z /\
  (- 20 <= calculateEloChange playerRating opponentRating draw_game
             gamesPlayed <= 20)%Z.
Proof.
  unfold calculateEloChange, actualScoreOf.
  pose proof (expectedScore_pos_lt_1 playerRating opponentRating) as He.
  set (e := calculateExpectedScore playerRating opponentRating) in *.
  set (g := match gamesPlayed with Some g => g | None => 50 end).
  destruct (kFactor_default_values playerRating g) as [-> | [-> | ->]];
    (split; [| split]); apply round_between; nra.
Qed.

(** X3.  The exported [calculateEloChange] returns a change for exactly
    the seven accepted result strings and throws
    ["Invalid game result: <result>"] for every other string. *)
Theorem exported_eloChange_accepts (playerRating opponentRating : R)
    (result : string) :
  (In result accepted_results ->
   exists change : Z,
     Exports.calculateEloChange playerRating opponentRating result
     = Return change) /\
  (~ In result accepted_results ->
   Exports.calculateEloChange playerRating opponentRating result
   = Throw ("Invalid game result: " +:+ result)).
Proof.
  split.
  - intros Hin.
    destruct (exported_returns_bounded playerRating opponentRating result Hin)
      as (change & H & _).
    eauto.
  - apply exported_throws.
Qed.

Lemma exported_eloChange_accepts_witness :
  Exports.calculateEloChange 1500 1500 "resign"
  = Throw "Invalid game result: resign".
Proof.
  destruct (exported_eloChange_accepts 1500 1500 "resign") as [_ H].
  apply H. unfold accepted_results. simpl.
  intros H'. repeat (destruct H' as [H' | H']; [discriminate H' |]).
  exact H'.
Defined.

(** The three spellings of a win, and of a loss, give the same change. *)
Lemma exported_eloChange_spellings (a b : R) :
  Exports.calculateEloChange a b "white_wins"
  = Exports.calculateEloChange a b "win" /\
  Exports.calculateEloChange a b "player1_wins"
  = Exports.calculateEloChange a b "win" /\
  Exports.calculateEloChange a b "black_wins"
  = Exports.calculateEloChange a b "loss" /\
  Exports.calculateEloChange a b "player2_wins"
  = Exports.calculateEloChange a b "loss".
Proof. repeat split; reflexivity. Qed.

Lemma clamp_not_below (lo hi x y : R) :
  lo <= x <= hi -> x <= y -> x <= max lo (min hi y).
Proof.
  intros Hx Hy. unfold max, min, Rmax, Rmin.
  destruct (Rle_dec hi y); destruct (Rle_dec lo _); lra.
Qed.

Lemma clamp_not_above (lo hi x y : R) :
  lo <= x <= hi -> y <= x -> max lo (min hi y) <= x.
Proof.
  intros Hx Hy. unfold max, min, Rmax, Rmin.
  destruct (Rle_dec hi y); destruct (Rle_dec lo _); lra.
Qed.

Lemma default_change_signs (rating games e : R) :
  0 < e < 1 ->
  0 <= IZR (round (calculateKFactor rating games None * (1 - e))) /\
  IZR (round (calculateKFactor rating games None * (0 - e))) <= 0.
Proof.
  intros He.
  destruct (kFactor_default_values rating games) as [-> | [-> | ->]];
    split.
  all: try (apply (IZR_le 0);
            apply (round_between _ 0 40); nra).
  all: apply (IZR_le _ 0); apply (round_between _ (- 40) 0); nra.
Qed.

(** X4.  With no options and both ratings inside [100, 3000], the
    winner's new rating is never below the old one and the loser's never
    above it. *)
Theorem newRatings_winner_and_loser
    (player1Rating player2Rating player1Games player2Games : R) :
  100 <= player1Rating <= 3000 ->
  100 <= player2Rating <= 3000 ->
  let won := calculateNewRatings player1Rating player2Rating
               player1Games player2Games player1_wins None in
  let lost := calculateNewRatings player1Rating player2Rating
                player1Games player2Games player2_wins None in
  player1Rating <= newRatingPlayer1 won /\
  newRatingPlayer2 won <= player2Rating /\
  newRatingPlayer1 lost <= player1Rating /\
  player2Rating <= newRatingPlayer2 lost.
Proof.
  intros H1 H2. cbv zeta.
  pose proof (expectedScore_pos_lt_1 player1Rating player2Rating) as He1.
  pose proof (expectedScore_pos_lt_1 player2Rating player1Rating) as He2.
  destruct (default_change_signs player1Rating player1Games _ He1)
    as [Hw1 Hl1].
  destruct (default_change_signs player2Rating player2Games _ He2)
    as [Hw2 Hl2].
  unfold calculateNewRatings; simpl.
  unfold or_else, truthy, RATING_FLOOR, RATING_CEILING.
  repeat split.
  - apply clamp_not_below; lra.
  - apply clamp_not_above; lra.
  - apply clamp_not_above; lra.
  - apply clamp_not_below; lra.
Qed.

Lemma newRatings_winner_and_loser_witness :
  1500 <= newRatingPlayer1
            (calculateNewRatings 1500 1400 50 50 player1_wins None).
Proof.
  apply (newRatings_winner_and_loser 1500 1400 50 50); lra.
Defined.

End RatingEngineMore.

(** ** Performance, required rating and reliability *)

Section PerformanceMore.
Import Js EloCalculator Reference.
Local Open Scope R_scope.

Lemma sumR_constant {A} (f : A -> R) (c : R) (l : list A) :
  List.Forall (fun x => f x = c) l ->
  sumR (map f l) = c * INR (length l).
Proof.
  induction 1 as [| x l Hx _ IH].
  - simpl. lra.
  - cbn [map sumR]. rewrite IH, Hx.
    change (length (x :: l)) with (S (length l)). rewrite S_INR. lra.
Qed.

Lemma nonempty_length_pos {A} (l : list A) : l <> [] -> 0 < INR (length l).
Proof.
  intros H. destruct l as [| x l]; [contradiction |].
  apply lt_0_INR. simpl. lia.
Qed.

Lemma fractionalScore_constant (results : list GameRecord) (g : GameResult) :
  results <> [] ->
  List.Forall (fun r => result r = g) results ->
  fractionalScore results = points g.
Proof.
  intros Hne Hall. unfold fractionalScore.
  rewrite (sumR_constant (fun r => points (result r)) (points g)).
  - field. pose proof (nonempty_length_pos results Hne). lra.
  - eapply List.Forall_impl; [| exact Hall].
    intros r Hr. simpl in Hr. rewrite Hr. reflexivity.
Qed.

(** X5.  A non-empty list of wins only performs at the rounded average
    opponent rating plus 400, a list of losses only at the average minus
    400, and a list of draws only at the rounded average itself,
    whatever the rounding of the logarithm. *)
Theorem performance_of_uniform_results (rounding : R)
    (results : list GameRecord) :
  results <> [] ->
  (List.Forall (fun r => result r = win) results ->
   calculatePerformanceRating rounding results
   = round (averageOpponent results + 400)) /\
  (List.Forall (fun r => result r = loss) results ->
   calculatePerformanceRating rounding results
   = round (averageOpponent results - 400)) /\
  (List.Forall (fun r => result r = draw_game) results ->
   calculatePerformanceRating rounding results
   = round (averageOpponent results)).
Proof.
  intros Hne.
  rewrite (performance_rating_nonempty rounding results Hne).
  split; [| split]; intros Hall;
    rewrite (fractionalScore_constant results _ Hne Hall);
    unfold drift, performanceOffset, points; f_equal.
  - destruct (Req_dec_T 1 1); [ring | lra].
  - destruct (Req_dec_T 0 1); [lra |].
    destruct (Req_dec_T 0 0); lra.
  - destruct (Req_dec_T (/ 2) 1); [lra |].
    destruct (Req_dec_T (/ 2) 0); [lra |].
    replace (/ 2 / (1 - / 2)) with 1 by lra.
    rewrite ln_1. lra.
Qed.

Lemma performance_of_uniform_results_witness :
  calculatePerformanceRating 0
    [ {| opponentRating := 1500; result := win |};
      {| opponentRating := 1700; result := win |} ]
  = round (averageOpponent
             [ {| opponentRating := 1500; result := win |};
               {| opponentRating := 1700; result := win |} ] + 400).
Proof.
  apply (performance_of_uniform_results 0
           [ {| opponentRating := 1500; result := win |};
             {| opponentRating := 1700; result := win |} ]).
  - discriminate.
  - repeat constructor.
Defined.

Lemma log10_le (x y : R) : 0 < x -> x <= y -> log10 x <= log10 y.
Proof.
  intros Hx Hxy. unfold log10. pose proof ln10_pos.
  apply Rmult_le_compat_r; [left; apply Rinv_0_lt_compat; lra |].
  destruct Hxy as [Hlt | ->]; [left; apply ln_increasing; lra | lra].
Qed.

(** X6.  The required rating never falls when the target score rises:
    for target scores [p <= q] strictly between 0 and 1 both calls
    return and the rating for [p] is at most the rating for [q]; for the
    target score 0.5 the result is the opponent's rating, rounded. *)
Theorem requiredRating_monotone (opponent p q : R) :
  0 < p -> p <= q -> q < 1 ->
  (exists rp rq : Z,
     calculateRequiredRating opponent (Finite p) = Return (Integer rp) /\
     calculateRequiredRating opponent (Finite q) = Return (Integer rq) /\
     (rp <= rq)%Z) /\
  calculateRequiredRating opponent (Finite (/ 2))
  = Return (Integer (round opponent)).
Proof.
  intros Hp Hpq Hq. split.
  - rewrite !requiredRating_returns by lra.
    eexists _, _. split; [reflexivity |]. split; [reflexivity |].
    apply round_le.
    assert (Hodds : p / (1 - p) <= q / (1 - q)).
    { apply (Rmult_le_reg_r ((1 - p) * (1 - q))); [nra |].
      field_simplify; nra. }
    pose proof (log10_le _ _ (odds_pos p ltac:(lra)) Hodds). lra.
  - rewrite requiredRating_returns by lra. do 3 f_equal.
    replace (/ 2 / (1 - / 2)) with 1 by lra.
    unfold log10. rewrite ln_1. lra.
Qed.

Lemma requiredRating_monotone_witness :
  exists rp rq : Z,
    calculateRequiredRating 1600 (Finite 0.25) = Return (Integer rp) /\
    calculateRequiredRating 1600 (Finite 0.75) = Return (Integer rq) /\
    (rp <= rq)%Z.
Proof.
  apply (requiredRating_monotone 1600 0.25 0.75); lra.
Defined.

(** X7.  For a non-negative number of games and a variance that is
    absent or non-negative, the reliability lies between 0 and 1; it is
    at most the base value [min 1 (games / 100)] and at least 70% of
    it. *)
Theorem reliability_bounds (gamesPlayed : R) (variance : option R) :
  0 <= gamesPlayed ->
  match variance with Some v => 0 <= v | None => True end ->
  let r := reliability (calculateRatingReliability gamesPlayed variance) in
  0 <= r <= 1 /\
  0.7 * min 1 (gamesPlayed / 100) <= r <= min 1 (gamesPlayed / 100).
Proof.
  intros Hg Hv. cbv zeta. unfold calculateRatingReliability; simpl.
  assert (Hb : 0 <= min 1 (gamesPlayed / 100) <= 1).
  { unfold min, Rmin. destruct (Rle_dec 1 (gamesPlayed / 100)); lra. }
  destruct variance as [v |]; [| lra].
  assert (Hpen : 0 <= min 0.3 (v / 200) <= 0.3).
  { unfold min, Rmin. destruct (Rle_dec 0.3 (v / 200)); lra. }
  nra.
Qed.

Lemma reliability_bounds_witness :
  0 <= reliability (calculateRatingReliability 40 (Some 100)) <= 1.
Proof.
  apply (reliability_bounds 40 (Some 100)); lra.
Defined.

(** X8.  The variance is not checked for sign: with 100 games or more a
    negative variance gives a reliability above 1. *)
Theorem reliability_negative_variance (gamesPlayed variance : R) :
  100 <= gamesPlayed -> variance < 0 ->
  1 < reliability (calculateRatingReliability gamesPlayed (Some variance)).
Proof.
  intros Hg Hv. unfold calculateRatingReliability; simpl.
  unfold min, Rmin.
  destruct (Rle_dec 1 (gamesPlayed / 100)); [| lra].
  destruct (Rle_dec 0.3 (variance / 200)); lra.
Qed.

Lemma reliability_negative_variance_witness :
  1 < reliability (calculateRatingReliability 120 (Some (- 50))).
Proof.
  apply (reliability_negative_variance 120 (- 50)); lra.
Defined.

(** X9.  The category depends on the number of games alone, with the
    buckets ordered: it never goes down when the number of games goes
    up, whatever the variances; it is [provisional] exactly below 10
    games and [highly_reliable] exactly from 100 games on. *)
Theorem reliability_category_monotone (games games' : R)
    (variance variance' : option R) :
  (games <= games' ->
   (category_rank (category (calculateRatingReliability games variance))
    <= category_rank
         (category (calculateRatingReliability games' variance')))%nat)
  /\
  (category (calculateRatingReliability games variance) = provisional
   <-> games < 10) /\
  (category (calculateRatingReliability games variance) = highly_reliable
   <-> 100 <= games).
Proof.
  unfold calculateRatingReliability; simpl.
  destruct (Rlt_dec games 10); destruct (Rlt_dec games 50);
    destruct (Rlt_dec games 100);
    destruct (Rlt_dec games' 10); destruct (Rlt_dec games' 50);
    destruct (Rlt_dec games' 100);
    (split; [intros Hle; simpl; try lia; lra |]);
    split; split; intros H; try discriminate H; try reflexivity; lra.
Qed.

Lemma reliability_category_monotone_witness :
  (category_rank (category (calculateRatingReliability 20 None))
   <= category_rank
        (category (calculateRatingReliability 60 (Some 10%R))))%nat.
Proof.
  destruct (reliability_category_monotone 20 60 None (Some 10)) as [H _].
  apply H. lra.
Defined.

End PerformanceMore.

(** ** The tournament life cycle *)

Section LifeCycle.
Import TournamentService Schema Storage Js Reference.
Local Open Scope storage_scope.

Variable shuffle : list Participant -> list Participant.

(** X10.  [startTournament] never starts a tournament: the participant
    list it reads is always empty, so it throws in every case ("not
    found", "already started or completed", or "not enough
    participants" for an upcoming tournament) and leaves the database
    as it was. *)
Theorem startTournament_always_throws (tid : string) (db : Db) :
  snd (startTournament shuffle tid db) = db /\
  fst (startTournament shuffle tid db)
  = match tournaments db !! tid with
    | None => Throw "Tournament not found"
    | Some t =>
        match tournament_status t with
        | upcoming => Throw "Not enough participants to start tournament"
        | _ => Throw "Tournament already started or completed"
        end
    end.
Proof.
  unfold startTournament, bind, getTournament.
  destruct (tournaments db !! tid) as [t |]; [| split; reflexivity].
  destruct (tournament_status t); split; reflexivity.
Qed.

Lemma active_games_none (tid : string) (db : Db) :
  no_active_game tid db ->
  getTournamentActiveGames tid db = (Return [], db).
Proof.
  intros Hnone. unfold getTournamentActiveGames, bind, getActiveGames, ret.
  f_equal. f_equal. apply filter_none.
  intros g Hg. apply List.filter_In in Hg as [Hin Hact].
  apply in_map_iff in Hin as ([gid g'] & Heq & Hin). simpl in Heq. subst g'.
  apply list_elem_of_In, elem_of_map_to_list in Hin.
  apply bool_decide_eq_false. apply (Hnone gid g Hin).
  unfold isActiveGame in Hact. destruct (status g); try discriminate.
  reflexivity.
Qed.

Lemma active_games_some (tid gid : string) (g : Game) (db : Db) :
  games db !! gid = Some g -> status g = game_active ->
  tournamentId g = Some tid ->
  exists first rest,
    getTournamentActiveGames tid db = (Return (first :: rest), db).
Proof.
  intros Hg Hact Htid.
  unfold getTournamentActiveGames, bind, getActiveGames, ret.
  match goal with
  | |- context [List.filter ?f (List.filter ?h ?l)] =>
      assert (Hin : In g (List.filter f (List.filter h l)))
  end.
  { apply List.filter_In. split.
    - apply List.filter_In. split.
      + apply in_map_iff. exists (gid, g). split; [reflexivity |].
        apply list_elem_of_In, elem_of_map_to_list. exact Hg.
      + unfold isActiveGame. rewrite Hact. reflexivity.
    - apply bool_decide_eq_true. exact Htid. }
  match goal with
  | |- context [List.filter ?f (List.filter ?h ?l)] =>
      destruct (List.filter f (List.filter h l)) as [| first rest]
  end.
  - destruct Hin.
  - eauto.
Qed.

(** X11.  When an active tournament has no active game left,
    [checkRoundCompletion] marks it completed and changes nothing else:
    the winner stays as it was (none is ever determined), users, games
    and the other tournaments are untouched. *)
Theorem checkRoundCompletion_completes (tid : string) (t : Tournament)
    (db : Db) :
  tournaments db !! tid = Some t ->
  tournament_status t = active ->
  no_active_game tid db ->
  checkRoundCompletion shuffle tid db
  = (Return tt,
     with_tournaments db (<[tid := completed_row t]> (tournaments db))).
Proof.
  intros Ht Hst Hnone.
  unfold checkRoundCompletion, try_catch.
  unfold bind at 1. unfold getTournament at 1. rewrite Ht, Hst.
  unfold bind at 1. rewrite (active_games_none tid db Hnone).
  cbn [length Nat.eqb].
  unfold getTournamentParticipants, getRemainingPlayers, bind, ret.
  cbn [length Nat.leb head option_map].
  unfold completeTournament, try_catch, updateTournament. rewrite Ht.
  reflexivity.
Qed.

(** X12.  In every other case [checkRoundCompletion] changes nothing:
    when the tournament does not exist, when it is not active, and when
    one of its games is still active. *)
Theorem checkRoundCompletion_idle (tid : string) (db : Db) :
  tournaments db !! tid = None \/
  (exists t, tournaments db !! tid = Some t /\ tournament_status t <> active)
  \/
  (exists gid g, games db !! gid = Some g /\ status g = game_active /\
                 tournamentId g = Some tid) ->
  checkRoundCompletion shuffle tid db = (Return tt, db).
Proof.
  intros Hcase.
  unfold checkRoundCompletion, try_catch.
  unfold bind at 1. unfold getTournament at 1.
  destruct (tournaments db !! tid) as [t |] eqn:Ht; [| reflexivity].
  destruct (tournament_status t) eqn:Hst; try reflexivity.
  destruct Hcase as [Hnone | [(t' & Ht' & Hne) | (gid & g & Hg & Hact & Htid)]].
  - discriminate Hnone.
  - injection Ht' as <-. contradiction.
  - destruct (active_games_some tid gid g db Hg Hact Htid)
      as (first & rest & Hrun).
    unfold bind at 1. rewrite Hrun. reflexivity.
Qed.

End LifeCycle.

(** ** More on recording the outcome of a tournament game *)

Section GameCompletionMore.
Import TournamentService Schema Storage Js Reference.
Local Open Scope storage_scope.

Variable shuffle : list Participant -> list Participant.

Lemma status_after_write (gs : gmap string Game) (gameId gid : string)
    (g g' : Game) :
  gs !! gameId = Some g -> status g' = status g ->
  status <$> <[gameId := g']> gs !! gid = status <$> gs !! gid.
Proof.
  intros Hg Hst. destruct (decide (gameId = gid)) as [<- | Hne].
  - rewrite lookup_insert_eq, Hg. simpl. f_equal. exact Hst.
  - rewrite lookup_insert_ne by exact Hne. reflexivity.
Qed.

Lemma updateUser_keeps_games (id : string) (updates : UserUpdates)
    (db : Db) :
  games (snd (updateUser id updates db)) = games db.
Proof.
  unfold updateUser. destruct (user_updates_fit updates); reflexivity.
Qed.

Lemma updateGame_keeps_statuses (id : string) (updates : GameUpdates)
    (db : Db) (gid : string) :
  set_status updates = None ->
  status <$> games (snd (updateGame id updates db)) !! gid
  = status <$> games db !! gid.
Proof.
  intros Hnone. unfold updateGame.
  destruct (game_updates_fit updates); [| reflexivity].
  cbn [snd games].
  destruct (games db !! id) as [g |] eqn:Hg; [| reflexivity].
  apply (status_after_write _ _ _ g); [exact Hg |].
  unfold game_after. cbn [status]. rewrite Hnone. reflexivity.
Qed.

Lemma all_keeps_statuses (writes : list (M unit)) :
  List.Forall
    (fun write : M unit =>
       forall db gid,
         status <$> games (snd (write db)) !! gid
         = status <$> games db !! gid) writes ->
  forall db gid,
    status <$> games (snd (all writes db)) !! gid
    = status <$> games db !! gid.
Proof.
  induction 1 as [| write rest Hwrite _ IH]; intros db gid.
  - reflexivity.
  - rewrite all_cons_state, IH. apply Hwrite.
Qed.

Lemma handleGameCompletion_statuses (gameId result : string) (db : Db) :
  exists db',
    handleGameCompletion shuffle gameId result db = (Return tt, db') /\
    forall gid, status <$> games db' !! gid = status <$> games db !! gid.
Proof.
  unfold handleGameCompletion, try_catch.
  unfold bind at 1. unfold getGame at 1.
  destruct (games db !! gameId) as [game |] eqn:Hgame; [| eauto].
  destruct (truthy_string (tournamentId game)) as [tid |]; [| eauto].
  unfold bind at 1. unfold getTournament at 1.
  destruct (tournaments db !! tid) as [t |]; [| eauto].
  unfold bind at 1.
  match goal with
  | |- exists db', (let (c, d0) := (let (c', d1) := ?U in _) in _) = _ /\ _ =>
      assert (HU : exists c d,
                 U = (c, d) /\
                 forall gid,
                   status <$> games d !! gid = status <$> games db !! gid)
  end.
  { destruct (truthy_string (whitePlayerId game)) as [whiteId |];
      [| unfold ret; eauto].
    destruct (truthy_string (blackPlayerId game)) as [blackId |];
      [| unfold ret; eauto].
    unfold bind, getUser.
    destruct (users db !! whiteId) as [whitePlayer |];
      [| unfold ret; eauto].
    destruct (users db !! blackId) as [blackPlayer |];
      [| unfold ret; eauto].
    unfold lift.
    destruct (Exports.calculateEloChange _ _ result) as [delta | message];
      [| eauto].
    match goal with
    | |- exists c d, ?W db = _ /\ _ =>
        exists (fst (W db)), (snd (W db));
          split; [destruct (W db); reflexivity |]
    end.
    apply all_keeps_statuses. repeat constructor; intros db0 gid.
    - rewrite updateUser_keeps_games. reflexivity.
    - rewrite updateUser_keeps_games. reflexivity.
    - apply updateGame_keeps_statuses. reflexivity. }
  destruct HU as (c & d & -> & Hd).
  destruct c as [[] | message]; [| eauto].
  destruct (checkRoundCompletion_frame shuffle tid d)
    as (db' & Hrun & _ & Hgames & _).
  rewrite Hrun. exists db'. split; [reflexivity |].
  intros gid. rewrite Hgames. apply Hd.
Qed.

(** X13.  [handleGameCompletion] never changes the status of a game
    and neither adds nor removes a game: in particular it never marks
    the game it is called for as completed.  It always returns
    normally. *)
Theorem handleGameCompletion_keeps_statuses (gameId result : string)
    (db : Db) (gid : string) :
  fst (handleGameCompletion shuffle gameId result db) = Return tt /\
  status <$> games (snd (handleGameCompletion shuffle gameId result db)) !! gid
  = status <$> games db !! gid.
Proof.
  destruct (handleGameCompletion_statuses gameId result db)
    as (db' & -> & H).
  split; [reflexivity | apply H].
Qed.

(** X14.  A call that does not name a tournament game changes nothing:
    when the game is unknown, when it has no tournament identifier (or
    an empty one), and when its tournament is unknown. *)
Theorem handleGameCompletion_ignores (gameId result : string) (db : Db) :
  games db !! gameId = None \/
  (exists game,
     games db !! gameId = Some game /\
     (tournamentId game = None \/ tournamentId game = Some EmptyString \/
      exists tid, tournamentId game = Some tid /\
                  tournaments db !! tid = None)) ->
  handleGameCompletion shuffle gameId result db = (Return tt, db).
Proof.
  intros Hcase. unfold handleGameCompletion, try_catch.
  unfold bind at 1. unfold getGame at 1.
  destruct Hcase as [-> | (game & -> & Hcase)]; [reflexivity |].
  cbv beta iota.
  destruct Hcase as [-> | [-> | (tid & -> & Ht)]]; try reflexivity.
  unfold truthy_string.
  destruct (decide (tid = EmptyString)); [reflexivity |].
  unfold bind at 1. unfold getTournament at 1. rewrite Ht. reflexivity.
Qed.

(** X15.  For a tournament game between two stored players, a result
    string that is not accepted changes nothing at all: the exception
    is caught, no rating moves and the round is not checked. *)
Theorem handleGameCompletion_invalid_result (db : Db)
    (gameId result : string) (game : Game) (tid : string)
    (white black : User) :
  tournament_game db gameId game tid white black ->
  ~ In result accepted_results ->
  handleGameCompletion shuffle gameId result db = (Return tt, db).
Proof.
  intros (Hgame & Htid & Htid0 & [t Ht] & Hw & Hw0 & Hb & Hb0 & Hwu & Hbu & Hne)
         Hbad.
  unfold handleGameCompletion, try_catch.
  unfold bind at 1. unfold getGame at 1. rewrite Hgame. cbv beta iota.
  rewrite Htid, (truthy_string_some _ Htid0).
  unfold bind at 1. unfold getTournament at 1. rewrite Ht. cbv beta iota.
  rewrite Hw, Hb, (truthy_string_some _ Hw0), (truthy_string_some _ Hb0).
  unfold bind at 1. unfold bind at 1. unfold getUser at 1.
  rewrite Hwu. cbv beta iota.
  unfold bind at 1. unfold getUser at 1. rewrite Hbu. cbv beta iota.
  unfold bind at 1. unfold lift at 1.
  rewrite (exported_throws _ _ _ Hbad). reflexivity.
Qed.

(** X16.  For a tournament game between two distinct stored players
    whose ratings and counters leave room in their columns, and an
    accepted result string, one call moves each of the two ratings by
    at most 40 points and leaves their sum unchanged. *)
Theorem handleGameCompletion_conserves_ratings (db : Db)
    (gameId result : string) (game : Game) (tid : string)
    (white black : User) :
  tournament_game db gameId game tid white black ->
  has_room white -> has_room black ->
  In result accepted_results ->
  exists db' white' black',
    handleGameCompletion shuffle gameId result db = (Return tt, db') /\
    users db' !! user_id white = Some white' /\
    users db' !! user_id black = Some black' /\
    (eloRating white' + eloRating black'
     = eloRating white + eloRating black)%Z /\
    (- 40 <= eloRating white' - eloRating white <= 40)%Z /\
    (- 40 <= eloRating black' - eloRating black <= 40)%Z.
Proof.
  intros Hgame Hwroom Hbroom Hok.
  destruct (exported_returns_bounded (IZR (eloRating white))
              (IZR (eloRating black)) result Hok) as (delta & Hdelta & Hsize).
  destruct (handleGameCompletion_applies shuffle 2000000000 db gameId result
              game tid white black delta Hgame Hwroom Hbroom ltac:(lia)
              Hdelta)
    as (db' & game' & white' & black' & Hrun & Hgame' & _ & _ & _ & Hw & Hb
        & Hwr & Hbr & _).
  destruct Hgame' as (_ & _ & _ & _ & _ & _ & _ & _ & Hu & Hv & _).
  rewrite Hw in Hu. rewrite Hb in Hv.
  exists db', white', black'. repeat split; try assumption; lia.
Qed.

End GameCompletionMore.

(** ** The games behind the brackets *)

Section BracketGames.
Import TournamentService Schema Storage Js Reference.
Local Open Scope storage_scope.

Lemma flat_map_seats_length (ms : list TournamentMatch) :
  length (flat_map seats ms) = 2 * length ms.
Proof.
  induction ms as [| m ms IH]; [reflexivity |].
  cbn [flat_map seats length app]. rewrite IH. lia.
Qed.

(** Creating the game of a new match between stored users keeps the
    earlier matches stored and stores the new one. *)
Lemma createGame_stores (tid name white black : string) (db : Db)
    (ms : list TournamentMatch) :
  all_stored tid db ms ->
  is_Some (users db !! white) -> is_Some (users db !! black) ->
  exists game db',
    createGame white black game_active tid true initialBoard [] db
    = (Return game, db') /\
    all_stored tid db'
      (ms ++ [ {| id := name; player1Id := white; player2Id := black;
                  gameId := Some (game_id game); matchResult := None;
                  isComplete := false |} ]) /\
    users db' = users db /\ tournaments db' = tournaments db /\
    serial db' = S (serial db).
Proof.
  intros Hall [uw Huw] [ub Hub]. unfold createGame. rewrite Huw, Hub.
  eexists _, _.
  split; [reflexivity |]. cbn [users tournaments serial game_id].
  split; [| auto]. unfold all_stored in *.
  apply List.Forall_app. split.
  - eapply List.Forall_impl; [| exact Hall].
    intros m [(k & Hk & Hid) (gid & g & Hgid & Hg & Hrest)].
    split.
    + exists k. cbn [serial]. split; [lia | exact Hid].
    + exists gid, g. split; [exact Hgid |]. split; [| exact Hrest].
      cbn [games]. rewrite lookup_insert_ne; [exact Hg |].
      rewrite Hid in Hgid. injection Hgid as <-.
      intros E. apply (inj pretty) in E. lia.
  - constructor; [| constructor]. split.
    + exists (serial db). cbn [serial gameId]. split; [lia | reflexivity].
    + eexists _, _. cbn [gameId games player1Id player2Id].
      split; [reflexivity |]. rewrite lookup_insert_eq.
      split; [reflexivity |]. cbn. auto 10.
Qed.

Lemma pairingLoop_stores tid (shuffled : list Participant) (k : nat) :
  forall j matches db,
    length shuffled - 2 * j <= k ->
    all_registered db shuffled ->
    all_stored tid db matches ->
    exists added db',
      pairingLoop tid shuffled (2 * j) matches db
      = (Return (matches ++ added), db') /\
      all_stored tid db' (matches ++ added) /\
      users db' = users db /\ tournaments db' = tournaments db /\
      serial db' = serial db + length added /\
      map id added = map match_name (seq j (length added)).
Proof.
  induction k as [| k IH]; intros j matches db Hk Hreg Hall.
  - exists [], db. rewrite pairingLoop_done by lia.
    rewrite app_nil_r. cbn [length]. rewrite Nat.add_0_r. auto 10.
  - destruct (lt_dec (2 * j + 1) (length shuffled)) as [Hpair | Hnopair].
    + destruct (lookup_lt_is_Some_2 shuffled (2 * j)) as [a Ha]; [lia |].
      destruct (lookup_lt_is_Some_2 shuffled (2 * j + 1)) as [b Hb]; [lia |].
      rewrite pairingLoop_pair by exact Hpair.
      unfold bind at 1. rewrite (userIdAt_lookup _ _ _ _ Ha).
      unfold bind at 1. rewrite (userIdAt_lookup _ _ _ _ Hb).
      unfold bind at 1.
      destruct (createGame_stores tid
                  ("match_" +:+ pretty (2 * j / 2 + 1))
                  (userId a) (userId b) db matches Hall
                  (all_registered_lookup _ _ _ _ Hreg Ha)
                  (all_registered_lookup _ _ _ _ Hreg Hb))
        as (game & db1 & Hcreate & Hall1 & Hu1 & Ht1 & Hs1).
      rewrite Hcreate.
      replace (2 * j + 2) with (2 * S j) by lia.
      destruct (IH (S j) _ db1 ltac:(lia)
                  (all_registered_users _ _ _ Hu1 Hreg) Hall1)
        as (added & db' & Hrun & Hall' & Hu & Ht & Hs & Hids).
      rewrite Hrun, <- app_assoc. cbn [app].
      eexists (_ :: added), db'. split; [reflexivity |].
      rewrite <- app_assoc in Hall'. cbn [app] in Hall'.
      split; [exact Hall' |].
      rewrite Hu, Ht, Hs, Hu1, Ht1, Hs1. cbn [length map seq id].
      repeat split; try lia. rewrite Hids. f_equal.
      unfold match_name. rewrite Nat.mul_comm, Nat.div_mul by lia.
      reflexivity.
    + exists [], db. rewrite app_nil_r.
      destruct (lt_dec (2 * j) (length shuffled)) as [Hin | Hout].
      * rewrite pairingLoop_bye, pairingLoop_done by lia.
        cbn [length]. rewrite Nat.add_0_r. auto 10.
      * rewrite pairingLoop_done by lia.
        cbn [length]. rewrite Nat.add_0_r. auto 10.
Qed.

Lemma roundRobin_inner_stores tid (participants : list Participant)
    (i : nat) (white : Participant) :
  participants !! i = Some white ->
  forall count j matches db,
    j + count <= length participants ->
    all_registered db participants ->
    all_stored tid db matches ->
    exists added db',
      for_count count j (roundRobinBody tid participants i) matches db
      = (Return (matches ++ added), db') /\
      all_stored tid db' (matches ++ added) /\
      users db' = users db /\ tournaments db' = tournaments db /\
      serial db' = serial db + length added.
Proof.
  intros Hi. induction count as [| count IH];
    intros j matches db Hj Hreg Hall.
  - exists [], db. rewrite app_nil_r. cbn [length for_count].
    rewrite Nat.add_0_r. auto 10.
  - destruct (lookup_lt_is_Some_2 participants j) as [black Hb]; [lia |].
    cbn [for_count]. unfold bind at 1. unfold roundRobinBody at 1.
    unfold bind at 1. rewrite (userIdAt_lookup _ _ _ _ Hi).
    unfold bind at 1. rewrite (userIdAt_lookup _ _ _ _ Hb).
    unfold bind at 1.
    destruct (createGame_stores tid
                ("match_" +:+ pretty i +:+ "_" +:+ pretty j)
                (userId white) (userId black) db matches Hall
                (all_registered_lookup _ _ _ _ Hreg Hi)
                (all_registered_lookup _ _ _ _ Hreg Hb))
      as (game & db1 & Hcreate & Hall1 & Hu1 & Ht1 & Hs1).
    rewrite Hcreate. unfold ret at 1.
    destruct (IH (S j) _ db1 ltac:(lia)
                (all_registered_users _ _ _ Hu1 Hreg) Hall1)
      as (added & db' & Hrun & Hall' & Hu & Ht & Hs).
    rewrite Hrun, <- app_assoc. cbn [app].
    eexists (_ :: added), db'. split; [reflexivity |].
    rewrite <- app_assoc in Hall'. cbn [app] in Hall'.
    split; [exact Hall' |].
    rewrite Hu, Ht, Hs, Hu1, Ht1, Hs1. cbn [length].
    repeat split; lia.
Qed.

Lemma roundRobin_outer_stores tid (participants : list Participant) :
  forall count i matches db,
    i + count = length participants ->
    all_registered db participants ->
    all_stored tid db matches ->
    exists added db',
      for_count count i
        (fun i matches =>
           for_range (i + 1) (length participants)
             (roundRobinBody tid participants i) matches) matches db
      = (Return (matches ++ added), db') /\
      all_stored tid db' (matches ++ added) /\
      users db' = users db /\ tournaments db' = tournaments db /\
      serial db' = serial db + length added.
Proof.
  induction count as [| count IH]; intros i matches db Hi Hreg Hall.
  - exists [], db. rewrite app_nil_r. cbn [length for_count].
    rewrite Nat.add_0_r. auto 10.
  - destruct (lookup_lt_is_Some_2 participants i) as [white Hw]; [lia |].
    cbn [for_count]. unfold bind at 1. unfold for_range at 1.
    destruct (roundRobin_inner_stores tid participants i white Hw
                (length participants - (i + 1)) (i + 1) matches db
                ltac:(lia) Hreg Hall)
      as (row & db1 & Hrow & Hall1 & Hu1 & Ht1 & Hs1).
    rewrite Hrow.
    destruct (IH (S i) (matches ++ row) db1 ltac:(lia)
                (all_registered_users _ _ _ Hu1 Hreg) Hall1)
      as (added & db' & Hrun & Hall' & Hu & Ht & Hs).
    rewrite Hrun, <- app_assoc.
    exists (row ++ added), db'. split; [reflexivity |].
    rewrite <- app_assoc in Hall'. split; [exact Hall' |].
    rewrite Hu, Ht, Hs, Hu1, Ht1, Hs1, length_app.
    repeat split; lia.
Qed.

Lemma all_stored_games (tid : string) (db : Db) (ms : list TournamentMatch) :
  all_stored tid db ms -> List.Forall (game_of_match tid db) ms.
Proof.
  intros H. eapply List.Forall_impl; [| exact H]. intros m [_ Hm]. exact Hm.
Qed.

(** X17.  When the participants are stored users, both generators
    store one game per match they return: the game a match names is in
    the database, active, rated, of the given tournament, with the
    match's first player as white and its second as black.  They leave
    users and tournaments untouched. *)
Theorem bracket_games_stored
    (shuffle : list Participant -> list Participant)
    (tid : string) (participants : list Participant) (db : Db) :
  (forall l, Permutation l (shuffle l)) ->
  all_registered db participants ->
  (exists matches db',
     generateSingleEliminationRound shuffle tid participants db
     = (Return matches, db') /\
     List.Forall (game_of_match tid db') matches /\
     users db' = users db /\ tournaments db' = tournaments db) /\
  (exists matches db',
     generateRoundRobinRound tid participants db = (Return matches, db') /\
     List.Forall (game_of_match tid db') matches /\
     users db' = users db /\ tournaments db' = tournaments db).
Proof.
  intros Hshuffle Hreg. split.
  - unfold generateSingleEliminationRound.
    destruct (pairingLoop_stores tid (shuffle participants)
                (length (shuffle participants)) 0 [] db ltac:(lia)
                (all_registered_shuffled _ _ _ Hshuffle Hreg)
                (List.Forall_nil _))
      as (added & db' & Hrun & Hall & Hu & Ht & _).
    change (2 * 0) with 0 in Hrun. cbn [app] in Hrun, Hall.
    exists added, db'. auto using all_stored_games.
  - unfold generateRoundRobinRound, for_range.
    destruct (roundRobin_outer_stores tid participants
                (length participants - 0) 0 [] db ltac:(lia) Hreg
                (List.Forall_nil _))
      as (added & db' & Hrun & Hall & Hu & Ht & _).
    cbn [app] in Hrun, Hall.
    exists added, db'. auto using all_stored_games.
Qed.

(** X18.  A single-elimination round over a shuffled list of [n]
    participants that are stored users names its matches [match_1],
    ..., [match_(n/2)] in order, and the number of byes is [n mod 2]:
    none for an even [n], exactly one (the last of the shuffled list)
    for an odd [n]. *)
Theorem single_elimination_names_and_byes
    (shuffle : list Participant -> list Participant)
    (tid : string) (participants : list Participant) (db : Db) :
  all_registered db (shuffle participants) ->
  let n := length (shuffle participants) in
  exists matches db' byes,
    generateSingleEliminationRound shuffle tid participants db
    = (Return matches, db') /\
    map id matches = map match_name (seq 0 (n / 2)) /\
    map userId (shuffle participants) = flat_map seats matches ++ byes /\
    length byes = n mod 2.
Proof.
  intros Hreg. cbv zeta. unfold generateSingleEliminationRound.
  destruct (pairingLoop_stores tid (shuffle participants)
              (length (shuffle participants)) 0 [] db ltac:(lia) Hreg
              (List.Forall_nil _))
    as (added & db' & Hrun & _ & _ & _ & _ & Hids).
  destruct (pairingLoop_spec tid (shuffle participants)
              (length (shuffle participants)) 0 [] db ltac:(lia) Hreg)
    as (added' & db'' & byes & Hrun' & Hlen & Hseats & _).
  change (2 * 0) with 0 in Hrun. rewrite Hrun in Hrun'.
  injection Hrun' as Hsame _. subst added'.
  rewrite Nat.sub_0_r in Hlen. rewrite drop_0 in Hseats.
  cbn [app] in Hrun. exists added, db', byes.
  split; [exact Hrun |]. rewrite <- Hlen. split; [exact Hids |].
  split; [exact Hseats |].
  apply (f_equal (@length string)) in Hseats.
  rewrite length_map, length_app, flat_map_seats_length, Hlen in Hseats.
  pose proof (Nat.div_mod_eq (length (shuffle participants)) 2). lia.
Qed.

End BracketGames.

(** ** Generating a round *)

Section RoundGeneration.
Import TournamentService Schema Storage Js Reference.
Local Open Scope storage_scope.

Variable shuffle : list Participant -> list Participant.

Lemma single_elimination_frame (tid : string)
    (participants : list Participant) (db : Db) :
  all_registered db (shuffle participants) ->
  exists matches db',
    generateSingleEliminationRound shuffle tid participants db
    = (Return matches, db') /\
    users db' = users db /\ tournaments db' = tournaments db.
Proof.
  intros Hreg. unfold generateSingleEliminationRound.
  destruct (pairingLoop_stores tid (shuffle participants)
              (length (shuffle participants)) 0 [] db ltac:(lia) Hreg
              (List.Forall_nil _))
    as (added & db' & Hrun & _ & Hu & Ht & _).
  change (2 * 0) with 0 in Hrun. cbn [app] in Hrun. eauto.
Qed.

Lemma round_robin_frame (tid : string) (participants : list Participant)
    (db : Db) :
  all_registered db participants ->
  exists matches db',
    generateRoundRobinRound tid participants db = (Return matches, db') /\
    users db' = users db /\ tournaments db' = tournaments db.
Proof.
  intros Hreg. unfold generateRoundRobinRound, for_range.
  destruct (roundRobin_outer_stores tid participants
              (length participants - 0) 0 [] db ltac:(lia) Hreg
              (List.Forall_nil _))
    as (added & db' & Hrun & _ & Hu & Ht & _).
  cbn [app] in Hrun. eauto.
Qed.

(** A first participant who is not a stored user: the first insert of
    the round-robin generator is refused. *)
Lemma round_robin_unregistered (tid : string) (p1 p2 : Participant)
    (rest : list Participant) (db : Db) :
  users db !! userId p1 = None ->
  exists message,
    generateRoundRobinRound tid (p1 :: p2 :: rest) db = (Throw message, db).
Proof.
  intros Hnone. unfold generateRoundRobinRound, for_range.
  cbn [length Nat.sub for_count Nat.add].
  unfold bind at 1. unfold bind at 1. unfold roundRobinBody at 1.
  unfold bind at 1. unfold userIdAt at 1. cbn [lookup list_lookup].
  unfold ret at 1.
  unfold bind at 1. unfold userIdAt at 1. cbn [lookup list_lookup].
  unfold ret at 1.
  unfold bind at 1. unfold createGame at 1. rewrite Hnone.
  eexists. reflexivity.
Qed.

(** X19.  [generateRound] changes nothing when the tournament is
    unknown or carries no rules.  When the participants are stored
    users it returns normally, whatever the format, and never touches
    users or tournaments.  It has no handler of its own: in a
    round-robin tournament a first participant who is not a stored
    user makes it throw, with nothing stored. *)
Theorem generateRound_frame (tid : string) (participants : list Participant)
    (db : Db) :
  (tournaments db !! tid = None \/
   (exists t, tournaments db !! tid = Some t /\ rules t = None) ->
   generateRound shuffle tid participants db = (Return tt, db)) /\
  ((forall l, Permutation l (shuffle l)) ->
   all_registered db participants ->
   exists db',
     generateRound shuffle tid participants db = (Return tt, db') /\
     users db' = users db /\ tournaments db' = tournaments db) /\
  (forall t settings p1 p2 rest,
     tournaments db !! tid = Some t -> rules t = Some settings ->
     eliminationFormat settings = round_robin ->
     participants = p1 :: p2 :: rest ->
     users db !! userId p1 = None ->
     exists message,
       generateRound shuffle tid participants db = (Throw message, db)).
Proof.
  split; [| split].
  - intros Hcase. unfold generateRound. unfold bind at 1.
    unfold getTournament at 1.
    destruct Hcase as [-> | (t & -> & Hr)]; [reflexivity |].
    cbv beta iota. rewrite Hr. reflexivity.
  - intros Hshuffle Hreg.
    pose proof (all_registered_shuffled _ _ _ Hshuffle Hreg) as Hreg'.
    unfold generateRound. unfold bind at 1. unfold getTournament at 1.
    destruct (tournaments db !! tid) as [t |] eqn:Ht.
    2:{ exists db. unfold ret. auto. }
    destruct (rules t) as [settings |] eqn:Hrules.
    2:{ exists db. unfold ret. auto. }
    destruct (eliminationFormat settings);
      unfold generateDoubleEliminationRound, generateSwissRound;
      unfold bind at 1;
      first
        [ destruct (single_elimination_frame tid participants db Hreg')
            as (ms & db' & Hrun & Hu & Htour); rewrite Hrun
        | destruct (round_robin_frame tid participants db Hreg)
            as (ms & db' & Hrun & Hu & Htour); rewrite Hrun ];
      exists db'; unfold ret; repeat split; assumption.
  - intros t settings p1 p2 rest Ht Hrules Hformat -> Hnone.
    unfold generateRound. unfold bind at 1. unfold getTournament at 1.
    rewrite Ht. cbv beta iota. rewrite Hrules, Hformat.
    unfold bind at 1.
    destruct (round_robin_unregistered tid p1 p2 rest db Hnone)
      as [message ->].
    eexists. reflexivity.
Qed.

End RoundGeneration.

(** ** The end of a game against the engine *)

Section EngineGames.
Import Schema Storage Js Reference ChessBot.
Local Open Scope storage_scope.

Lemma game_results_accepted (result : string) :
  In result game_results -> In result accepted_results.
Proof.
  unfold game_results, accepted_results. simpl. intuition.
Qed.

(** X20.  For a session whose game and user are stored, a result that
    is a value of the enum [game_result] and a user whose rating and
    counters leave room in their columns, [handleGameEnd] returns
    normally, removes the session, marks the game completed with that
    result, counts one more game for the user and moves the rating by
    at most 40 points; games won goes up by one exactly for
    ["white_wins"], and the counters of lost and drawn games are never
    changed. *)
Theorem handleGameEnd_records (chat : Z) (session : GameSession)
    (result gid : string) (w : World) (g : Game) (u : User) :
  gameId session = Some gid -> gid <> EmptyString ->
  games (db w) !! gid = Some g ->
  users (db w) !! userId session = Some u ->
  has_room u ->
  In result game_results ->
  exists w' g' u',
    handleGameEnd chat session result w = (Return tt, w') /\
    activeSessions w' !! chat = None /\
    games (db w') !! gid = Some g' /\ status g' = game_completed /\
    game_result g' = Some result /\
    users (db w') !! userId session = Some u' /\
    gamesPlayed u' = (gamesPlayed u + 1)%Z /\
    gamesWon u' = (if decide (result = "white_wins")
                   then gamesWon u + 1 else gamesWon u)%Z /\
    gamesLost u' = gamesLost u /\ gamesDrawn u' = gamesDrawn u /\
    (- 40 <= eloRating u' - eloRating u <= 40)%Z.
Proof.
  intros Hgid Hgid0 Hg Hu Hroom Hok.
  destruct (exported_returns_bounded (IZR (eloRating u)) 1500 result
              (game_results_accepted _ Hok))
    as (delta & Hdelta & Hsize).
  unfold handleGameEnd, recordGameEnd.
  rewrite Hgid, (truthy_string_some _ Hgid0).
  unfold bind at 1. rewrite updateGame_fits.
  2:{ unfold game_updates_fit. cbn [set_result set_whiteEloChange
        set_blackEloChange fits_int4].
      rewrite bool_decide_eq_true_2 by exact Hok. reflexivity. }
  rewrite Hg.
  unfold bind at 1. unfold getUser at 1. cbn [users]. rewrite Hu.
  unfold bind at 1. unfold lift at 1. rewrite Hdelta.
  rewrite updateUser_fits.
  2:{ destruct Hroom as (? & ? & ? & ? & ?). fits_columns. }
  cbn [users games tournaments serial]. rewrite Hu.
  eexists _, _, _. split; [reflexivity |].
  cbn [db activeSessions users games].
  rewrite lookup_delete_eq, !lookup_insert_eq.
  repeat split; try reflexivity; cbn; lia.
Qed.

(** X21.  With a result that is not a value of the enum [game_result]
    the first write is refused and the call throws: nothing is stored,
    the game keeps its status, the users are untouched and the session
    stays in the map.  This holds for every session that names a game,
    stored or not. *)
Theorem handleGameEnd_invalid_result (chat : Z) (session : GameSession)
    (result gid : string) (w : World) :
  gameId session = Some gid -> gid <> EmptyString ->
  ~ In result game_results ->
  exists message,
    handleGameEnd chat session result w = (Throw message, w).
Proof.
  intros Hgid Hgid0 Hbad.
  unfold handleGameEnd, recordGameEnd.
  rewrite Hgid, (truthy_string_some _ Hgid0).
  unfold bind at 1. unfold updateGame at 1. unfold game_updates_fit.
  cbn [set_result]. rewrite bool_decide_eq_false_2 by exact Hbad.
  cbn [andb]. destruct w. eexists. reflexivity.
Qed.

(** X22.  A session without a game identifier (absent or empty) only
    loses its entry in the map: the database is not touched, whatever
    the result string. *)
Theorem handleGameEnd_without_game (chat : Z) (session : GameSession)
    (result : string) (w : World) :
  gameId session = None \/ gameId session = Some EmptyString ->
  handleGameEnd chat session result w
  = (Return tt,
     {| db := db w; activeSessions := delete chat (activeSessions w) |}).
Proof.
  intros [H | H]; unfold handleGameEnd, recordGameEnd; rewrite H;
    reflexivity.
Qed.

End EngineGames.

(** ** The properties above on concrete inputs *)

Section Instances.
Import TournamentService Schema Storage Js Reference Examples.

Lemma resign_not_accepted : ~ In "resign" accepted_results.
Proof.
  unfold accepted_results. simpl.
  intros H. repeat (destruct H as [H | H]; [discriminate H |]). exact H.
Qed.

Lemma white_wins_accepted : In "white_wins" accepted_results.
Proof. left. reflexivity. Qed.

Lemma finished_db_has_no_active_game : no_active_game "t1" tournamentDb.
Proof.
  intros gid g Hg Hact. unfold tournamentDb in Hg. cbn [games] in Hg.
  apply lookup_insert_Some in Hg as [[_ <-] | [_ Hg]].
  - discriminate Hact.
  - rewrite lookup_empty in Hg. discriminate Hg.
Qed.

Lemma checkRoundCompletion_completes_witness :
  checkRoundCompletion (fun l => l) "t1" tournamentDb
  = (Return tt,
     with_tournaments tournamentDb
       (<["t1" := completed_row runningTournament]>
          (tournaments tournamentDb))).
Proof.
  apply (checkRoundCompletion_completes (fun l => l) "t1" runningTournament
           tournamentDb).
  - reflexivity.
  - reflexivity.
  - exact finished_db_has_no_active_game.
Defined.

Lemma checkRoundCompletion_idle_witness :
  checkRoundCompletion (fun l => l) "t9" tournamentDb
  = (Return tt, tournamentDb).
Proof.
  apply (checkRoundCompletion_idle (fun l => l) "t9" tournamentDb).
  left. reflexivity.
Defined.

Lemma handleGameCompletion_ignores_witness :
  handleGameCompletion (fun l => l) "g9" "white_wins" tournamentDb
  = (Return tt, tournamentDb).
Proof.
  apply (handleGameCompletion_ignores (fun l => l) "g9" "white_wins"
           tournamentDb).
  left. reflexivity.
Defined.

Lemma handleGameCompletion_invalid_result_witness :
  handleGameCompletion (fun l => l) "g1" "resign" tournamentDb
  = (Return tt, tournamentDb).
Proof.
  apply (handleGameCompletion_invalid_result (fun l => l) tournamentDb
           "g1" "resign" finishedGame "t1" (player "w") (player "b")).
  - exact finished_game_is_tournament_game.
  - exact resign_not_accepted.
Defined.

Lemma handleGameCompletion_conserves_ratings_witness :
  exists db' white' black',
    handleGameCompletion (fun l => l) "g1" "white_wins" tournamentDb
    = (Return tt, db') /\
    users db' !! "w" = Some white' /\
    users db' !! "b" = Some black' /\
    (eloRating white' + eloRating black' = 1200 + 1200)%Z /\
    (- 40 <= eloRating white' - 1200 <= 40)%Z /\
    (- 40 <= eloRating black' - 1200 <= 40)%Z.
Proof.
  apply (handleGameCompletion_conserves_ratings (fun l => l) tournamentDb
           "g1" "white_wins" finishedGame "t1" (player "w") (player "b")).
  - exact finished_game_is_tournament_game.
  - exact (player_has_room "w").
  - exact (player_has_room "b").
  - exact white_wins_accepted.
Defined.

Lemma bracket_games_stored_witness :
  exists matches db',
    generateRoundRobinRound "t" trio trioDb = (Return matches, db') /\
    List.Forall (game_of_match "t" db') matches /\
    users db' = users trioDb /\ tournaments db' = tournaments trioDb.
Proof.
  apply (bracket_games_stored (fun l => l) "t" trio trioDb).
  - intros l. reflexivity.
  - exact trio_registered.
Defined.

Lemma single_elimination_names_and_byes_witness :
  exists matches db' byes,
    generateSingleEliminationRound (fun l => l) "t" trio trioDb
    = (Return matches, db') /\
    map id matches = map match_name (seq 0 (3 / 2)) /\
    map userId trio = flat_map seats matches ++ byes /\
    length byes = 3 mod 2.
Proof.
  apply (single_elimination_names_and_byes (fun l => l) "t" trio trioDb).
  exact trio_registered.
Defined.

Lemma league_registered : all_registered leagueDb trio.
Proof. exact trio_registered. Qed.

Lemma generateRound_frame_witness :
  (exists db',
     generateRound (fun l => l) "t1" trio leagueDb = (Return tt, db') /\
     users db' = users leagueDb /\
     tournaments db' = tournaments leagueDb) /\
  (exists message,
     generateRound (fun l => l) "t1" trio strangersDb
     = (Throw message, strangersDb)).
Proof.
  split.
  - apply (generateRound_frame (fun l => l) "t1" trio leagueDb).
    + intros l. reflexivity.
    + exact league_registered.
  - destruct (generateRound_frame (fun l => l) "t1" trio strangersDb)
      as (_ & _ & H).
    apply (H league
             {| maxParticipants := 16; isRatedSetting := true;
                autoStart := false; autoAdvance := true;
                eliminationFormat := round_robin |}
             {| userId := "a" |} {| userId := "b" |} [ {| userId := "c" |} ]);
      reflexivity.
Defined.

Lemma white_wins_is_a_game_result : In "white_wins" game_results.
Proof. left. reflexivity. Qed.

Lemma win_is_no_game_result : ~ In "win" game_results.
Proof.
  unfold game_results. simpl.
  intros H. repeat (destruct H as [H | H]; [discriminate H |]). exact H.
Qed.

Lemma handleGameEnd_records_witness :
  exists w' g' u',
    ChessBot.handleGameEnd 7 engineSession "white_wins" engineWorld
    = (Return tt, w') /\
    ChessBot.activeSessions w' !! 7%Z = None /\
    games (ChessBot.db w') !! "e1" = Some g' /\
    status g' = game_completed /\
    game_result g' = Some "white_wins" /\
    users (ChessBot.db w') !! "w" = Some u' /\
    gamesPlayed u' = (50 + 1)%Z /\
    gamesWon u' = (20 + 1)%Z /\
    gamesLost u' = 20%Z /\ gamesDrawn u' = 10%Z /\
    (- 40 <= eloRating u' - 1200 <= 40)%Z.
Proof.
  apply (handleGameEnd_records 7 engineSession "white_wins" "e1"
           engineWorld engineGame (player "w")).
  - reflexivity.
  - discriminate.
  - reflexivity.
  - reflexivity.
  - exact (player_has_room "w").
  - exact white_wins_is_a_game_result.
Defined.

Lemma handleGameEnd_invalid_result_witness :
  exists message,
    ChessBot.handleGameEnd 7 engineSession "win" engineWorld
    = (Throw message, engineWorld).
Proof.
  apply (handleGameEnd_invalid_result 7 engineSession "win" "e1"
           engineWorld).
  - reflexivity.
  - discriminate.
  - exact win_is_no_game_result.
Defined.

Lemma handleGameEnd_without_game_witness :
  ChessBot.handleGameEnd 7 idleSession "draw" engineWorld
  = (Return tt,
     {| ChessBot.db := ChessBot.db engineWorld;
        ChessBot.activeSessions :=
          delete 7%Z (ChessBot.activeSessions engineWorld) |}).
Proof.
  apply (handleGameEnd_without_game 7 idleSession "draw" engineWorld).
  left. reflexivity.
Defined.

End Instances.
